(** * go-ini: cached, hot-reloadable INI configuration (parse_ini.go)

    A shallow embedding of package [ini] of go-ini: the per-file handle
    [fileDetails], the process-wide registry [iniFiler], the subscriber table
    [updaters], and the two background watch loops.  Handles are Go pointers,
    so they live in a heap and are passed around by address; the goroutines
    started by [keepWatch] and [newKeepWatch] are kept as a list of watchers,
    each tagged with the body of its loop. *)

From Stdlib Require Import ZArith.
From stdpp Require Import base option list gmap strings.

Open Scope string_scope.
Open Scope list_scope.

(** ** The external collaborators *)

(** Go [error] values, identified by their message. *)
Abbreviation error := string (only parsing).

(** Modelled from the spec: the parsing collaborator (gopkg.in/ini.v1) is not
    part of this repository.  A parsed [*ini.File] is the queryable structure
    of the spec: sections, each a map from key to stored string.  What the
    library adds on top of that (a default section, keys inherited from a
    parent section, values that refer to other keys) is not modelled. *)
Abbreviation File := (gmap string (gmap string string)) (only parsing).

(** Modelled from the spec: [f.Section(name)], the named section; a missing
    one reads as empty. *)
Definition File_Section (f : File) (name : string) : gmap string string :=
  default ∅ (f !! name).

(** Modelled from the spec: [s.Key(name).String()], the stored string; a
    missing key reads as the empty string. *)
Definition Section_Key_String (s : gmap string string) (name : string) : string :=
  default "" (s !! name).

(** Modelled from the spec: [cfg.MapTo(v)], the reflective decode of a file
    into the record behind [v interface{}]; how a record is filled is fixed
    by its type.  The result is the record as the decode left it and the
    error it reported. *)
Class Mappable (V : Type) := MapTo : File → V → V * option error.

(** The event kinds of the file-watch collaborator (gopkg.in/fsnotify.v1,
    not part of this repository): [type Op uint32], [Create Op = 1 << iota]
    and on. *)
Definition fsnotify_Create : Z := Z.shiftl 1 0.
Definition fsnotify_Write : Z := Z.shiftl 1 1.
Definition fsnotify_Remove : Z := Z.shiftl 1 2.
Definition fsnotify_Rename : Z := Z.shiftl 1 3.
Definition fsnotify_Chmod : Z := Z.shiftl 1 4.

Record Event := { Name : string; Op : Z }.

(** What the outside world answers during one call: the pair returned by
    [ini.Load(fileName)] (the library returns a nil file next to an error),
    the error of [fsnotify.NewWatcher()] and the error of [watchman.Add]. *)
Record Env := {
  ini_Load : string → option File * option error;
  fsnotify_NewWatcher : option error;
  fsnotify_Add : string → option error
}.

(** ** The data of the package *)

(** [type updateFunc func()]: a client callback, known by its identity.  The
    nil func value is not among them: what starting a nil entry does is
    outside this model. *)
Abbreviation updateFunc := nat (only parsing).

Record fileDetails := {
  fileName : string;
  watch : bool;            (* True if file is being watched *)
  cfg : option File        (* *ini.File, nil until loaded *)
}.

(** The two loop bodies a handle's goroutine can run. *)
Inductive loopKind :=
  | LoadAndUpdate          (* go func() of keepWatch *)
  | UpdateOnly.            (* go func() of newKeepWatch *)

(** A watcher made by [fsnotify.NewWatcher()], with the goroutine reading its
    [Events] channel and the paths added to it so far. *)
Record watcher := {
  w_fd : nat;
  w_loop : loopKind;
  w_paths : list string
}.

(** The actions a run performs, in program order. *)
Inductive effect :=
  | EvLoad (fd : nat) (err : option error)   (* load() ran ini.Load *)
  | EvGo (fd : nat) (k : loopKind)           (* go func() { for { ... } }() *)
  | EvWatch (fd : nat)                       (* fd.watch = true *)
  | EvCallback (f : updateFunc).             (* go cbUpdateFunc() *)

(** The package state: the heap of handles, the two package-level maps (a nil
    map reads like an empty one, and every write is preceded by [make]), the
    watchers with their goroutines, and the trace of actions. *)
Record state := {
  heap : list fileDetails;
  iniFiler : gmap string nat;
  updaters : gmap string (list updateFunc);
  watchers : list watcher;
  trace : list effect
}.

Definition init : state :=
  {| heap := []; iniFiler := ∅; updaters := ∅; watchers := []; trace := [] |}.

#[global] Instance loopKind_eq_dec : EqDecision loopKind.
Proof. solve_decision. Defined.
#[global] Instance effect_eq_dec : EqDecision effect.
Proof. solve_decision. Defined.

(** ** State and panic monad *)

(** A call runs on the package state and either returns or panics (a nil
    pointer dereference); [None] is the panic. *)
Definition M (A : Type) : Type := state → option (A * state).

#[global] Instance M_ret : MRet M := λ A a st, Some (a, st).
#[global] Instance M_bind : MBind M := λ A B k m st,
  match m st with
  | Some (a, st') => k a st'
  | None => None
  end.

Definition panic {A} : M A := λ _, None.
Definition get : M state := λ st, Some (st, st).
Definition modify (f : state → state) : M unit := λ st, Some (tt, f st).

Definition set_heap (f : list fileDetails → list fileDetails) (st : state) : state :=
  {| heap := f (heap st); iniFiler := iniFiler st; updaters := updaters st;
     watchers := watchers st; trace := trace st |}.
Definition set_iniFiler (f : gmap string nat → gmap string nat) (st : state) : state :=
  {| heap := heap st; iniFiler := f (iniFiler st); updaters := updaters st;
     watchers := watchers st; trace := trace st |}.
Definition set_updaters (f : gmap string (list updateFunc) → gmap string (list updateFunc))
    (st : state) : state :=
  {| heap := heap st; iniFiler := iniFiler st; updaters := f (updaters st);
     watchers := watchers st; trace := trace st |}.
Definition set_watchers (f : list watcher → list watcher) (st : state) : state :=
  {| heap := heap st; iniFiler := iniFiler st; updaters := updaters st;
     watchers := f (watchers st); trace := trace st |}.
Definition emit (es : list effect) (st : state) : state :=
  {| heap := heap st; iniFiler := iniFiler st; updaters := updaters st;
     watchers := watchers st; trace := trace st ++ es |}.

(** [&fileDetails{...}]: a fresh address. *)
Definition alloc (fd : fileDetails) : M nat := λ st,
  Some (length (heap st), set_heap (λ h, h ++ [fd]) st).

(** [*fd]; only an address that was never allocated has nothing behind it. *)
Definition deref (fd : nat) : M fileDetails := λ st,
  match heap st !! fd with
  | Some d => Some (d, st)
  | None => None
  end.

Definition with_cfg (c : option File) (d : fileDetails) : fileDetails :=
  {| fileName := fileName d; watch := watch d; cfg := c |}.
Definition with_watch (b : bool) (d : fileDetails) : fileDetails :=
  {| fileName := fileName d; watch := b; cfg := cfg d |}.

Definition store (fd : nat) (f : fileDetails → fileDetails) : M unit :=
  modify (set_heap (alter f fd)).

(** ** The methods of [fileDetails] *)

(** [keepWatch], lines 219-251.  The goroutine is started before the path is
    added, so it exists (with nothing to read) when [Add] fails. *)
Definition keepWatch (env : Env) (fd : nat) : M (option error) :=
  match fsnotify_NewWatcher env with
  | Some err => mret (Some err)
  | None =>
      d ← deref fd;
      st ← get;
      let watchman := length (watchers st) in
      _ ← modify (set_watchers (λ ws,
             ws ++ [{| w_fd := fd; w_loop := LoadAndUpdate; w_paths := [] |}]));
      _ ← modify (emit [EvGo fd LoadAndUpdate]);
      match fsnotify_Add env (fileName d) with
      | Some err => mret (Some err)
      | None =>
          _ ← modify (set_watchers (alter (λ w,
                 {| w_fd := w_fd w; w_loop := w_loop w;
                    w_paths := w_paths w ++ [fileName d] |}) watchman));
          _ ← store fd (with_watch true);
          _ ← modify (emit [EvWatch fd]);
          mret None
      end
  end.

(** [load], lines 190-206.  Both results of [ini.Load] are assigned before
    the error is looked at; the error of [keepWatch] is dropped. *)
Definition load (env : Env) (fd : nat) : M (option error) :=
  d ← deref fd;
  let '(c, err) := ini_Load env (fileName d) in
  _ ← store fd (with_cfg c);
  _ ← modify (emit [EvLoad fd err]);
  match err with
  | Some e => mret (Some e)
  | None =>
      d ← deref fd;
      _ ← (if negb (watch d) then _ ← keepWatch env fd; mret tt else mret tt);
      mret None
  end.

(** [ReadKey], lines 208-217.  The methods of a nil [*ini.File] dereference
    their receiver. *)
Definition ReadKey (fd : nat) (section key defaultVal : string) : M string :=
  d ← deref fd;
  match cfg d with
  | None => panic
  | Some f =>
      let val := Section_Key_String (File_Section f section) key in
      if decide (val ≠ "") then mret val else mret defaultVal
  end.

(** [update], lines 253-266. *)
Definition update (fd : nat) : M unit :=
  d ← deref fd;
  st ← get;
  match updaters st !! fileName d with
  | None => mret tt
  | Some updateFunc => modify (emit (EvCallback <$> updateFunc))
  end.

(** [Register], lines 268-276. *)
Definition Register (fd : nat) (f : updateFunc) : M unit :=
  d ← deref fd;
  modify (set_updaters (λ u,
    <[fileName d := default [] (u !! fileName d) ++ [f]]> u)).

(** [MapContents], lines 293-300. *)
Definition MapContents `{Mappable V} (env : Env) (fd : nat) (v : V)
    : M (V * option error) :=
  d ← deref fd;
  let '(c, err) := ini_Load env (fileName d) in
  _ ← store fd (with_cfg c);
  match err with
  | Some e => mret (v, Some ("failed load config file, err: " +:+ e))
  | None =>
      match c with
      | None => panic
      | Some f => mret (MapTo f v)
      end
  end.

(** [newKeepWatch], lines 306-328, and [KeepWatch], which is it. *)
Definition newKeepWatch (env : Env) (fd : nat) : M (option error) :=
  match fsnotify_NewWatcher env with
  | Some err =>
      mret (Some ("failed to create new watcher for INI file err: " +:+ err))
  | None =>
      d ← deref fd;
      st ← get;
      let watchman := length (watchers st) in
      _ ← modify (set_watchers (λ ws,
             ws ++ [{| w_fd := fd; w_loop := UpdateOnly; w_paths := [] |}]));
      _ ← modify (emit [EvGo fd UpdateOnly]);
      match fsnotify_Add env (fileName d) with
      | Some err =>
          mret (Some ("Failed add new watcher for INI file err: " +:+ err))
      | None =>
          _ ← modify (set_watchers (alter (λ w,
                 {| w_fd := w_fd w; w_loop := w_loop w;
                    w_paths := w_paths w ++ [fileName d] |}) watchman));
          mret None
      end
  end.

Definition KeepWatch (env : Env) (fd : nat) : M (option error) :=
  newKeepWatch env fd.

(** One turn of a watch loop on an event read from [watchman.Events]:
    lines 230-239 for [keepWatch], lines 314-319 for [newKeepWatch]. *)
Definition loop_body (env : Env) (k : loopKind) (fd : nat) (event : Event) : M unit :=
  if decide (Z.land (Op event) fsnotify_Write = fsnotify_Write) then
    match k with
    | LoadAndUpdate => _ ← load env fd; update fd
    | UpdateOnly => update fd
    end
  else mret tt.

(** ** The package functions *)

(** [NewIniFile], lines 169-188. *)
Definition NewIniFile (env : Env) (fileName : string) : M (option nat * option error) :=
  st ← get;
  match iniFiler st !! fileName with
  | Some f => mret (Some f, None)
  | None =>
      fd ← alloc {| fileName := fileName; watch := false; cfg := None |};
      err ← load env fd;
      match err with
      | Some e => mret (None, Some e)
      | None =>
          _ ← modify (set_iniFiler (<[fileName := fd]>));
          mret (Some fd, None)
      end
  end.

(** [LoadIniConfig], lines 279-290.  The file is loaded twice, at line 280
    and again inside [MapContents] (line 295), and may have changed in
    between: [env] answers the first call, [env'] the second. *)
Definition LoadIniConfig `{Mappable V} (env env' : Env) (fileName : string) (c : V)
    : M (V * (option nat * option error)) :=
  let '(cfg, err) := ini_Load env fileName in
  match err with
  | Some e => mret (c, (None, Some ("failed load config file, err: " +:+ e)))
  | None =>
      f ← alloc {| fileName := fileName; watch := false; cfg := cfg |};
      '(c', err) ← MapContents env' f c;
      match err with
      | Some e => mret (c', (None, Some ("failed to map cfg err: " +:+ e)))
      | None => mret (c', (Some f, None))
      end
  end.

(** The state [load] leaves once [ini.Load] has answered [(c, err)]. *)
Definition loaded (fd : nat) (c : option File) (err : option error) (st : state) : state :=
  {| heap := alter (with_cfg c) fd (heap st);
     iniFiler := iniFiler st; updaters := updaters st;
     watchers := watchers st; trace := trace st ++ [EvLoad fd err] |}.

(** ** Runs of the package *)

(** One move of the program: a client call on a handle it holds, or a watch
    loop taking an event.  fsnotify only sends a watcher the events of the
    paths added to it. *)
Inductive step : state → state → Prop :=
  | step_NewIniFile env p r st st' :
      NewIniFile env p st = Some (r, st') → step st st'
  | step_LoadIniConfig (V : Type) (HV : Mappable V) env env' p (c : V) r st st' :
      LoadIniConfig env env' p c st = Some (r, st') → step st st'
  | step_ReadKey fd section key defaultVal r st st' :
      ReadKey fd section key defaultVal st = Some (r, st') → step st st'
  | step_Register fd f r st st' :
      Register fd f st = Some (r, st') → step st st'
  | step_KeepWatch env fd r st st' :
      KeepWatch env fd st = Some (r, st') → step st st'
  | step_MapContents (V : Type) (HV : Mappable V) env fd (v : V) r st st' :
      MapContents env fd v st = Some (r, st') → step st st'
  | step_event env i w event r st st' :
      watchers st !! i = Some w → Name event ∈ w_paths w →
      loop_body env (w_loop w) (w_fd w) event st = Some (r, st') → step st st'.

Definition steps : state → state → Prop := rtc step.

(** How often [fd.watch = true] ran for a handle. *)
Definition armings (fd : nat) (tr : list effect) : nat :=
  length (filter (λ e, e = EvWatch fd) tr).

(** The [watch] flag of a handle as a number: 1 when set. *)
Definition flag (h : list fileDetails) (fd : nat) : nat :=
  match h !! fd with
  | Some d => if watch d then 1 else 0
  | None => 0
  end.

(** The flag of every handle says how often it was set. *)
Definition armed_once (st : state) : Prop :=
  ∀ fd, armings fd (trace st) = flag (heap st) fd.

(** What every move keeps: registry entries stay, flags do not go back, and
    the flags keep counting their own settings. *)
Definition evolves (st st' : state) : Prop :=
  (∀ p h, iniFiler st !! p = Some h → iniFiler st' !! p = Some h) ∧
  (∀ fd, (flag (heap st) fd ≤ flag (heap st') fd)%nat) ∧
  (armed_once st → armed_once st').

(** The callbacks [update] finds for a handle: [updaters[fd.fileName]]. *)
Definition registered (d : fileDetails) (st : state) : list updateFunc :=
  default [] (updaters st !! fileName d).

(** ** A concrete world: app.ini with [[server] port=8080] *)

Definition server_ini : File := {[ "server" := {[ "port" := "8080" ]} ]}.

(** The file parses; the watch facility works. *)
Definition env_ok : Env :=
  {| ini_Load := λ p,
       if decide (p = "app.ini") then (Some server_ini, None)
       else (None, Some ("open " +:+ p +:+ ": no such file or directory"));
     fsnotify_NewWatcher := None;
     fsnotify_Add := λ _, None |}.

(** The file was rewritten and no longer parses. *)
Definition env_bad : Env :=
  {| ini_Load := λ p, (None, Some "unclosed section: [server");
     fsnotify_NewWatcher := None;
     fsnotify_Add := λ _, None |}.

(** The file parses; the watch facility is out of descriptors. *)
Definition env_nowatch : Env :=
  {| ini_Load := ini_Load env_ok;
     fsnotify_NewWatcher := Some "too many open files";
     fsnotify_Add := λ _, None |}.

Definition write_event : Event := {| Name := "app.ini"; Op := fsnotify_Write |}.
Definition chmod_event : Event := {| Name := "app.ini"; Op := fsnotify_Chmod |}.

(** The state after [NewIniFile("app.ini")] in [env_ok]; the handle is 0. *)
Definition st_open : state :=
  {| heap := [{| fileName := "app.ini"; watch := true; cfg := Some server_ini |}];
     iniFiler := {[ "app.ini" := 0 ]};
     updaters := ∅;
     watchers := [{| w_fd := 0; w_loop := LoadAndUpdate; w_paths := ["app.ini"] |}];
     trace := [EvLoad 0 None; EvGo 0 LoadAndUpdate; EvWatch 0] |}.

(** The state after a further [KeepWatch()] on that handle. *)
Definition st_both : state :=
  {| heap := heap st_open; iniFiler := iniFiler st_open; updaters := ∅;
     watchers := watchers st_open ++
       [{| w_fd := 0; w_loop := UpdateOnly; w_paths := ["app.ini"] |}];
     trace := trace st_open ++ [EvGo 0 UpdateOnly] |}.


(** The open handle with two callbacks registered, 7 and then 8. *)
Definition st_subscribed : state :=
  {| heap := heap st_open; iniFiler := iniFiler st_open;
     updaters := {[ "app.ini" := [7; 8] ]};
     watchers := watchers st_open; trace := trace st_open |}.

(** A record passed to [MapTo] by value: the decode refuses it. *)
Inductive byValue := ByValue.
#[global] Instance byValue_Mappable : Mappable byValue :=
  λ _ v, (v, Some "cannot map to non-pointer struct").

(** ** Sentences of the specification, to be held against the code *)

(** A watch loop that takes a write event runs [load] and then [update]:
    the trace grows by the load, whatever arming the load does, and then one
    call per registered callback. *)
Definition reloads_then_updates (env : Env) (k : loopKind) (fd : nat)
    (event : Event) (st : state) : Prop :=
  ∀ d, heap st !! fd = Some d →
  ∃ st' err tl, loop_body env k fd event st = Some (tt, st') ∧
    trace st' = trace st ++ [EvLoad fd err] ++ tl ++ (EvCallback <$> registered d st) ∧
    ∀ f, EvCallback f ∉ tl.



(** ** Shape of the states the package reaches *)

Definition set_trace (tr : list effect) (st : state) : state :=
  {| heap := heap st; iniFiler := iniFiler st; updaters := updaters st;
     watchers := watchers st; trace := tr |}.

(** The loops that reload a handle: started by [keepWatch] for it, with the
    path added. *)
Definition reloaders (fd : nat) (ws : list watcher) : list watcher :=
  filter (λ w, w_fd w = fd ∧ w_loop w = LoadAndUpdate ∧ w_paths w ≠ []) ws.

(** The registry maps a path to a handle of that path; a watcher belongs to
    an allocated handle and watches nothing but that handle's file; a handle
    has a reloading loop exactly when its flag is set. *)
Record wf (st : state) : Prop := {
  wf_registry : ∀ p h, iniFiler st !! p = Some h →
    ∃ d, heap st !! h = Some d ∧ fileName d = p;
  wf_watchers : ∀ w, w ∈ watchers st →
    ∃ d, heap st !! w_fd w = Some d ∧ (w_paths w = [] ∨ w_paths w = [fileName d]);
  wf_reloaders : ∀ fd, length (reloaders fd (watchers st)) = flag (heap st) fd
}.

(** Nothing is taken back: a handle stays allocated under its file name, a
    subscriber list only gets longer, and the watchers stay as they are. *)
Record grows (st st' : state) : Prop := {
  grows_heap : ∀ fd d, heap st !! fd = Some d →
    ∃ d', heap st' !! fd = Some d' ∧ fileName d' = fileName d;
  grows_updaters : ∀ p l, updaters st !! p = Some l →
    ∃ l', updaters st' !! p = Some (l ++ l');
  grows_watchers : watchers st `prefix_of` watchers st'
}.

(** The elementary changes the methods are made of. *)
Inductive prim : state → state → Prop :=
  | prim_alloc st d :
      watch d = false → prim st (set_heap (λ h, h ++ [d]) st)
  | prim_cfg st fd c :
      prim st (set_heap (alter (with_cfg c) fd) st)
  | prim_idle st fd k d :
      heap st !! fd = Some d →
      prim st (set_watchers (λ ws,
        ws ++ [{| w_fd := fd; w_loop := k; w_paths := [] |}]) st)
  | prim_update_loop st fd d :
      heap st !! fd = Some d →
      prim st (set_watchers (λ ws,
        ws ++ [{| w_fd := fd; w_loop := UpdateOnly; w_paths := [fileName d] |}]) st)
  | prim_arm st fd d :
      heap st !! fd = Some d → watch d = false →
      prim st (set_heap (alter (with_watch true) fd) (set_watchers (λ ws,
        ws ++ [{| w_fd := fd; w_loop := LoadAndUpdate; w_paths := [fileName d] |}]) st))
  | prim_register st fd d f :
      heap st !! fd = Some d →
      prim st (set_updaters (λ u,
        <[fileName d := default [] (u !! fileName d) ++ [f]]> u) st)
  | prim_insert st p fd d :
      iniFiler st !! p = None → heap st !! fd = Some d → fileName d = p →
      prim st (set_iniFiler (<[p := fd]>) st)
  | prim_trace st tr :
      prim st (set_trace tr st).

(** The calls a client makes, as opposed to the turns of the watch loops. *)
Inductive call : state → state → Prop :=
  | call_NewIniFile env p r st st' :
      NewIniFile env p st = Some (r, st') → call st st'
  | call_LoadIniConfig (V : Type) (HV : Mappable V) env env' p (c : V) r st st' :
      LoadIniConfig env env' p c st = Some (r, st') → call st st'
  | call_ReadKey fd section key defaultVal r st st' :
      ReadKey fd section key defaultVal st = Some (r, st') → call st st'
  | call_Register fd f r st st' :
      Register fd f st = Some (r, st') → call st st'
  | call_KeepWatch env fd r st st' :
      KeepWatch env fd st = Some (r, st') → call st st'
  | call_MapContents (V : Type) (HV : Mappable V) env fd (v : V) r st st' :
      MapContents env fd v st = Some (r, st') → call st st'.

(** A second handle on app.ini, made by [LoadIniConfig] after the open. *)
Record serverConfig := { Port : string }.
#[global] Instance serverConfig_Mappable : Mappable serverConfig :=
  λ f _, ({| Port := Section_Key_String (File_Section f "server") "port" |}, None).

Definition st_two : state :=
  {| heap := heap st_open ++
       [{| fileName := "app.ini"; watch := false; cfg := Some server_ini |}];
     iniFiler := iniFiler st_open; updaters := ∅;
     watchers := watchers st_open; trace := trace st_open |}.

(** The file after a rewrite that moves the port. *)
Definition server_ini' : File := {[ "server" := {[ "port" := "9000" ]} ]}.
Definition env_new : Env :=
  {| ini_Load := λ p,
       if decide (p = "app.ini") then (Some server_ini', None)
       else (None, Some ("open " +:+ p +:+ ": no such file or directory"));
     fsnotify_NewWatcher := None;
     fsnotify_Add := λ _, None |}.

(** The watcher can be made but the path cannot be added to it. *)
Definition env_noadd : Env :=
  {| ini_Load := ini_Load env_ok;
     fsnotify_NewWatcher := None;
     fsnotify_Add := λ _, Some "no space left on device" |}.

(** ** The first version of the package (lines 1-132)

    [load], [ReadKey], [keepWatch] and its loop are the ones above; there is
    no [KeepWatch], [MapContents] or [LoadIniConfig].  [update] calls the
    callbacks in turn instead of starting them, and [Register] does not make
    the [updaters] map, so here the nil map and the empty one differ. *)
Module V1.

Record state1 := {
  pkg : state;
  made : bool          (* updaters != nil *)
}.

Definition init1 : state1 := {| pkg := init; made := false |}.

Definition M1 (A : Type) : Type := state1 → option (A * state1).

(** A method that does not assign to [updaters]. *)
Definition lift {A} (m : M A) : M1 A := λ s,
  match m (pkg s) with
  | Some (a, st') => Some (a, {| pkg := st'; made := made s |})
  | None => None
  end.

(** [NewIniFile], lines 31-50. *)
Definition NewIniFile (env : Env) (fileName : string) : M1 (option nat * option error) :=
  λ s,
  match iniFiler (pkg s) !! fileName with
  | Some f => Some ((Some f, None), s)
  | None =>
      match lift (alloc {| fileName := fileName; watch := false; cfg := None |}) s with
      | None => None
      | Some (fd, s1) =>
          match lift (load env fd) s1 with
          | None => None
          | Some (Some e, s2) => Some ((None, Some e), s2)
          | Some (None, s2) =>
              Some ((Some fd, None),
                    {| pkg := set_iniFiler (<[fileName := fd]>) (pkg s2);
                       made := true |})
          end
      end
  end.

(** [ReadKey], lines 70-80. *)
Definition ReadKey (fd : nat) (section key defaultVal : string) : M1 string :=
  lift (ReadKey fd section key defaultVal).

(** [update], lines 116-127; reading the nil map gives the nil list. *)
Definition update (fd : nat) : M1 unit := lift (update fd).

(** [Register], lines 129-132: an assignment to an entry of the nil map
    panics. *)
Definition Register (fd : nat) (f : updateFunc) : M1 unit := λ s,
  if made s then lift (Register fd f) s else None.

(** One turn of the loop of [keepWatch], lines 93-102. *)
Definition loop_body (env : Env) (fd : nat) (event : Event) : M1 unit := λ s,
  if decide (Z.land (Op event) fsnotify_Write = fsnotify_Write) then
    match lift (load env fd) s with
    | Some (_, s1) => update fd s1
    | None => None
    end
  else Some (tt, s).

Inductive step1 : state1 → state1 → Prop :=
  | step1_NewIniFile env p r s s' :
      NewIniFile env p s = Some (r, s') → step1 s s'
  | step1_ReadKey fd section key defaultVal r s s' :
      ReadKey fd section key defaultVal s = Some (r, s') → step1 s s'
  | step1_Register fd f r s s' :
      Register fd f s = Some (r, s') → step1 s s'
  | step1_event env i w event r s s' :
      watchers (pkg s) !! i = Some w → Name event ∈ w_paths w →
      loop_body env (w_fd w) event s = Some (r, s') → step1 s s'.

Definition steps1 : state1 → state1 → Prop := rtc step1.

End V1.

(** ** What each method does to the state *)

Ltac run :=
  unfold mbind, M_bind, mret, M_ret, deref, store, modify, get, alloc, panic;
  simpl.

Lemma alter_snoc {A} (f : A → A) (l : list A) (x : A) :
  alter f (length l) (l ++ [x]) = l ++ [f x].
Proof.
  rewrite alter_app_r_alt by lia. by rewrite Nat.sub_diag.
Qed.

Lemma keepWatch_NewWatcher_error env fd st e :
  fsnotify_NewWatcher env = Some e →
  keepWatch env fd st = Some (Some e, st).
Proof. intros HN. unfold keepWatch. by rewrite HN. Qed.

Lemma keepWatch_Add_error env fd st d e :
  fsnotify_NewWatcher env = None →
  heap st !! fd = Some d →
  fsnotify_Add env (fileName d) = Some e →
  keepWatch env fd st = Some (Some e,
    {| heap := heap st; iniFiler := iniFiler st; updaters := updaters st;
       watchers := watchers st ++ [{| w_fd := fd; w_loop := LoadAndUpdate; w_paths := [] |}];
       trace := trace st ++ [EvGo fd LoadAndUpdate] |}).
Proof.
  intros HN Hd HA. unfold keepWatch. rewrite HN. run. rewrite Hd. simpl.
  by rewrite HA.
Qed.

Lemma keepWatch_ok env fd st d :
  fsnotify_NewWatcher env = None →
  heap st !! fd = Some d →
  fsnotify_Add env (fileName d) = None →
  keepWatch env fd st = Some (None,
    {| heap := alter (with_watch true) fd (heap st);
       iniFiler := iniFiler st; updaters := updaters st;
       watchers := watchers st ++
         [{| w_fd := fd; w_loop := LoadAndUpdate; w_paths := [fileName d] |}];
       trace := trace st ++ [EvGo fd LoadAndUpdate; EvWatch fd] |}).
Proof.
  intros HN Hd HA. unfold keepWatch. rewrite HN. run. rewrite Hd. simpl.
  rewrite HA. unfold set_heap, set_watchers, emit. simpl.
  by rewrite alter_snoc, <- app_assoc.
Qed.

Lemma loaded_lookup fd c err st d :
  heap st !! fd = Some d → heap (loaded fd c err st) !! fd = Some (with_cfg c d).
Proof. intros Hd. simpl. by rewrite list_lookup_alter_eq, Hd. Qed.

Lemma load_error env fd st d c e :
  heap st !! fd = Some d →
  ini_Load env (fileName d) = (c, Some e) →
  load env fd st = Some (Some e, loaded fd c (Some e) st).
Proof.
  intros Hd HL. unfold load. run. rewrite Hd. simpl. by rewrite HL.
Qed.

Lemma load_watching env fd st d c :
  heap st !! fd = Some d →
  ini_Load env (fileName d) = (c, None) →
  watch d = true →
  load env fd st = Some (None, loaded fd c None st).
Proof.
  intros Hd HL Hw. unfold load. run. rewrite Hd. simpl. rewrite HL. simpl.
  rewrite list_lookup_alter_eq, Hd. simpl. by rewrite Hw.
Qed.

Lemma load_arming env fd st d c :
  heap st !! fd = Some d →
  ini_Load env (fileName d) = (c, None) →
  watch d = false →
  load env fd st =
    match keepWatch env fd (loaded fd c None st) with
    | Some (_, st') => Some (None, st')
    | None => None
    end.
Proof.
  intros Hd HL Hw. unfold load. run. rewrite Hd. simpl. rewrite HL. simpl.
  rewrite list_lookup_alter_eq, Hd. simpl. rewrite Hw. simpl.
  unfold set_heap, emit, loaded. simpl.
  by destruct (keepWatch _ _ _) as [[? ?]|].
Qed.

(** ** Reading keys *)

Lemma ReadKey_loaded st fd d f section key defaultVal :
  heap st !! fd = Some d → cfg d = Some f →
  ReadKey fd section key defaultVal st =
    Some (if decide (Section_Key_String (File_Section f section) key ≠ "")
          then Section_Key_String (File_Section f section) key
          else defaultVal, st).
Proof.
  intros Hd Hc. unfold ReadKey. run. rewrite Hd. simpl. rewrite Hc.
  by case_decide.
Qed.

Lemma ReadKey_nil st fd d section key defaultVal :
  heap st !! fd = Some d → cfg d = None →
  ReadKey fd section key defaultVal st = None.
Proof. intros Hd Hc. unfold ReadKey. run. rewrite Hd. simpl. by rewrite Hc. Qed.

(** C3. On a loaded snapshot, a key that is present in the section with a
    non-empty value is returned as stored; a missing section, a missing key
    or an empty stored value gives the caller's default.  The state is left
    as it was. *)
Theorem ReadKey_value_or_default st fd d f section key defaultVal :
  heap st !! fd = Some d → cfg d = Some f →
  (∀ s v, f !! section = Some s → s !! key = Some v → v ≠ "" →
     ReadKey fd section key defaultVal st = Some (v, st)) ∧
  (f !! section = None ∨
   (∃ s, f !! section = Some s ∧ (s !! key = None ∨ s !! key = Some "")) →
     ReadKey fd section key defaultVal st = Some (defaultVal, st)).
Proof.
  intros Hd Hc. rewrite (ReadKey_loaded _ _ _ _ _ _ _ Hd Hc).
  unfold File_Section, Section_Key_String. split.
  - intros s v Hs Hv Hne. rewrite Hs. change (default ∅ (Some s)) with s.
    rewrite Hv. change (default "" (Some v)) with v. by case_decide.
  - intros [Hs | (s & Hs & [Hv | Hv])]; rewrite Hs.
    + change (default ∅ None) with (∅ : gmap string string).
      rewrite lookup_empty. change (default "" None) with "".
      by case_decide.
    + change (default ∅ (Some s)) with s. rewrite Hv.
      change (default "" None) with "". by case_decide.
    + change (default ∅ (Some s)) with s. rewrite Hv.
      change (default "" (Some "")) with "". by case_decide.
Qed.

Lemma ReadKey_value_or_default_witness :
  ReadKey 0 "server" "port" "0" st_open = Some ("8080", st_open) ∧
  ReadKey 0 "server" "missing" "9090" st_open = Some ("9090", st_open) ∧
  ReadKey 0 "other" "port" "1" st_open = Some ("1", st_open).
Proof.
  split; [| split].
  - apply (ReadKey_value_or_default st_open 0 _ server_ini "server" "port" "0"
             eq_refl eq_refl) with (s := {[ "port" := "8080" ]}).
    + reflexivity.
    + reflexivity.
    + vm_compute. discriminate.
  - apply (ReadKey_value_or_default st_open 0 _ server_ini "server" "missing" "9090"
             eq_refl eq_refl).
    right. exists {[ "port" := "8080" ]}. split; [reflexivity | left; reflexivity].
  - apply (ReadKey_value_or_default st_open 0 _ server_ini "other" "port" "1"
             eq_refl eq_refl).
    left. reflexivity.
Defined.

(** ** The watch loops *)

(** C6. An event whose operation lacks the write bit makes a watch loop do
    nothing: no [load], no callback, the state and its trace stay as they
    were. *)
Theorem loop_ignores_non_write env k fd event st :
  Z.land (Op event) fsnotify_Write ≠ fsnotify_Write →
  loop_body env k fd event st = Some (tt, st).
Proof.
  intros Hop. unfold loop_body. by rewrite decide_False.
Qed.

Lemma loop_ignores_non_write_witness :
  Z.land (Op chmod_event) fsnotify_Write ≠ fsnotify_Write ∧
  loop_body env_bad LoadAndUpdate 0 chmod_event st_open = Some (tt, st_open).
Proof.
  split.
  - vm_compute. lia.
  - apply (loop_ignores_non_write env_bad LoadAndUpdate 0 chmod_event st_open).
    vm_compute. lia.
Defined.

(** ** A reload that fails *)

(** C1. What the code does when a loaded file stops parsing: [load] (and
    [MapContents] alike) returns the error, but the handle's snapshot is by
    then the nil file that [ini.Load] returned with it, and the key that was
    readable before makes [ReadKey] panic. *)
Theorem failed_reload_drops_snapshot :
  NewIniFile env_ok "app.ini" init = Some ((Some 0, None), st_open) ∧
  ReadKey 0 "server" "port" "0" st_open = Some ("8080", st_open) ∧
  (∃ st', load env_bad 0 st_open = Some (Some "unclosed section: [server", st') ∧
     cfg <$> heap st' !! 0 = Some None ∧
     ReadKey 0 "server" "port" "0" st' = None) ∧
  (∃ st', MapContents env_bad 0 ByValue st_open =
       Some ((ByValue, Some "failed load config file, err: unclosed section: [server"), st') ∧
     cfg <$> heap st' !! 0 = Some None ∧
     ReadKey 0 "server" "port" "0" st' = None).
Proof.
  split; [by vm_compute |]. split; [by vm_compute |]. split.
  - eexists. split; [by vm_compute |]. by vm_compute.
  - eexists. split; [by vm_compute |]. by vm_compute.
Qed.

(** C2. A state the program reaches in which [ReadKey] does not return: the
    file is opened, rewritten into something unparsable, and the watch loop
    reloads it on the write event; the registered handle then has a nil
    snapshot and [ReadKey] panics on it. *)
Theorem ReadKey_panics_after_failed_reload :
  ∃ st, steps init st ∧ iniFiler st !! "app.ini" = Some 0 ∧
    ReadKey 0 "server" "port" "0" st = None.
Proof.
  exists (loaded 0 None (Some "unclosed section: [server") st_open).
  split; [| split; by vm_compute].
  eapply rtc_l.
  { apply (step_NewIniFile env_ok "app.ini" (Some 0, None) init st_open).
    by vm_compute. }
  apply rtc_once.
  eapply (step_event env_bad 0 _ write_event tt st_open).
  - reflexivity.
  - simpl. apply list_elem_of_here.
  - by vm_compute.
Qed.

(** ** Outcomes of the methods, case by case *)

Lemma emit_nil st : emit [] st = st.
Proof. destruct st. unfold emit. simpl. by rewrite app_nil_r. Qed.

(** [load] returns the error of [ini.Load] and ends in one of three ways:
    nothing armed, a loop started whose path could not be added, or a loop
    started and the flag set; the last two only from an unwatched handle. *)
Lemma load_outcome env fd st d :
  heap st !! fd = Some d →
  ∃ st1 tl,
    load env fd st = Some ((ini_Load env (fileName d)).2, st1) ∧
    trace st1 = trace st ++ [EvLoad fd (ini_Load env (fileName d)).2] ++ tl ∧
    updaters st1 = updaters st ∧ iniFiler st1 = iniFiler st ∧
    ((tl = [] ∧
      heap st1 = alter (with_cfg (ini_Load env (fileName d)).1) fd (heap st) ∧
      watchers st1 = watchers st) ∨
     (tl = [EvGo fd LoadAndUpdate] ∧ watch d = false ∧
      heap st1 = alter (with_cfg (ini_Load env (fileName d)).1) fd (heap st) ∧
      watchers st1 = watchers st ++
        [{| w_fd := fd; w_loop := LoadAndUpdate; w_paths := [] |}]) ∨
     (tl = [EvGo fd LoadAndUpdate; EvWatch fd] ∧ watch d = false ∧
      (ini_Load env (fileName d)).2 = None ∧
      fsnotify_NewWatcher env = None ∧ fsnotify_Add env (fileName d) = None ∧
      heap st1 = alter (with_watch true) fd
                   (alter (with_cfg (ini_Load env (fileName d)).1) fd (heap st)) ∧
      watchers st1 = watchers st ++
        [{| w_fd := fd; w_loop := LoadAndUpdate; w_paths := [fileName d] |}])).
Proof.
  intros Hd. destruct (ini_Load env (fileName d)) as [c [e|]] eqn:HL; simpl.
  - exists (loaded fd c (Some e) st), []. rewrite (load_error _ _ _ _ _ _ Hd HL).
    repeat split; auto.
  - destruct (watch d) eqn:Hw.
    + exists (loaded fd c None st), []. rewrite (load_watching _ _ _ _ _ Hd HL Hw).
      repeat split; auto.
    + rewrite (load_arming _ _ _ _ _ Hd HL Hw).
      pose proof (loaded_lookup fd c None st d Hd) as Hd1.
      destruct (fsnotify_NewWatcher env) as [e|] eqn:HN.
      { rewrite (keepWatch_NewWatcher_error _ _ _ _ HN).
        exists (loaded fd c None st), []. repeat split; auto. }
      destruct (fsnotify_Add env (fileName d)) as [e|] eqn:HA.
      { rewrite (keepWatch_Add_error _ _ _ _ e HN Hd1) by done.
        eexists _, [EvGo fd LoadAndUpdate]. split; [done |]. simpl.
        split; [by rewrite <- app_assoc |]. do 2 (split; [done |]).
        right; left. done. }
      rewrite (keepWatch_ok _ _ _ _ HN Hd1) by done.
      eexists _, [EvGo fd LoadAndUpdate; EvWatch fd]. split; [done |]. simpl.
      split; [by rewrite <- app_assoc |]. do 2 (split; [done |]).
      right; right. done.
Qed.

Lemma update_outcome fd st d :
  heap st !! fd = Some d →
  update fd st = Some (tt, emit (EvCallback <$> registered d st) st).
Proof.
  intros Hd. unfold update, registered. run. rewrite Hd. simpl.
  destruct (updaters st !! fileName d); simpl; [done |].
  by rewrite emit_nil.
Qed.

Lemma Register_outcome fd f st d :
  heap st !! fd = Some d →
  Register fd f st = Some (tt, set_updaters (λ u,
    <[fileName d := default [] (u !! fileName d) ++ [f]]> u) st).
Proof. intros Hd. unfold Register. run. by rewrite Hd. Qed.

(** [newKeepWatch] fails exactly on the two errors of the watch facility,
    and unless [NewWatcher] failed it has started one more loop. *)
Lemma newKeepWatch_outcome env fd st d :
  heap st !! fd = Some d →
  ∃ r st', newKeepWatch env fd st = Some (r, st') ∧
    heap st' = heap st ∧ iniFiler st' = iniFiler st ∧ updaters st' = updaters st ∧
    ((∃ e, fsnotify_NewWatcher env = Some e ∧
        r = Some ("failed to create new watcher for INI file err: " +:+ e) ∧
        st' = st) ∨
     (∃ e, fsnotify_NewWatcher env = None ∧ fsnotify_Add env (fileName d) = Some e ∧
        r = Some ("Failed add new watcher for INI file err: " +:+ e) ∧
        watchers st' = watchers st ++
          [{| w_fd := fd; w_loop := UpdateOnly; w_paths := [] |}] ∧
        trace st' = trace st ++ [EvGo fd UpdateOnly]) ∨
     (fsnotify_NewWatcher env = None ∧ fsnotify_Add env (fileName d) = None ∧
        r = None ∧
        watchers st' = watchers st ++
          [{| w_fd := fd; w_loop := UpdateOnly; w_paths := [fileName d] |}] ∧
        trace st' = trace st ++ [EvGo fd UpdateOnly])).
Proof.
  intros Hd. unfold newKeepWatch.
  destruct (fsnotify_NewWatcher env) as [e|] eqn:HN.
  { eexists _, _. split; [done |]. repeat split; eauto. }
  run. rewrite Hd. simpl.
  destruct (fsnotify_Add env (fileName d)) as [e|] eqn:HA.
  { eexists _, _. split; [done |]. simpl. repeat split; eauto 10. }
  eexists _, _. split; [done |]. simpl. repeat split; auto.
  right; right. repeat split; auto. by rewrite alter_snoc.
Qed.

Lemma MapContents_outcome `{Mappable V} env fd (v : V) st r st' :
  MapContents env fd v st = Some (r, st') →
  ∃ d, heap st !! fd = Some d ∧
    st' = set_heap (alter (with_cfg (ini_Load env (fileName d)).1) fd) st ∧
    match ini_Load env (fileName d) with
    | (_, Some e) => r = (v, Some ("failed load config file, err: " +:+ e))
    | (Some f, None) => r = MapTo f v
    | (None, None) => False
    end.
Proof.
  unfold MapContents. run. destruct (heap st !! fd) as [d|] eqn:Hd; [| done].
  simpl. destruct (ini_Load env (fileName d)) as [c [e|]] eqn:HL; simpl.
  - intros Hr. injection Hr as Hr Hs. exists d. rewrite HL. subst.
    by destruct c.
  - destruct c as [f|]; simpl; [| done]. intros Hr. injection Hr as Hr Hs.
    exists d. rewrite HL. by subst.
Qed.

Lemma NewIniFile_registered env p st f :
  iniFiler st !! p = Some f →
  NewIniFile env p st = Some ((Some f, None), st).
Proof. intros Hf. unfold NewIniFile. run. by rewrite Hf. Qed.

Lemma NewIniFile_fresh env p st :
  iniFiler st !! p = None →
  NewIniFile env p st =
    match load env (length (heap st))
            (set_heap (λ h, h ++ [{| fileName := p; watch := false; cfg := None |}]) st) with
    | Some (Some e, st1) => Some ((None, Some e), st1)
    | Some (None, st1) =>
        Some ((Some (length (heap st)), None),
              set_iniFiler (<[p := length (heap st)]>) st1)
    | None => None
    end.
Proof.
  intros Hf. unfold NewIniFile. run. rewrite Hf. simpl.
  by destruct (load _ _ _) as [[[e|] st1]|].
Qed.

Lemma LoadIniConfig_outcome `{Mappable V} env env' p (c : V) st :
  LoadIniConfig env env' p c st =
    match ini_Load env p with
    | (_, Some e) => Some ((c, (None, Some ("failed load config file, err: " +:+ e))), st)
    | (_, None) =>
        match ini_Load env' p with
        | (cf, Some e) =>
            Some ((c, (None, Some ("failed to map cfg err: " +:+
                                   ("failed load config file, err: " +:+ e)))),
                  set_heap (λ h, h ++ [{| fileName := p; watch := false; cfg := cf |}]) st)
        | (Some f, None) =>
            Some (((MapTo f c).1,
                   match (MapTo f c).2 with
                   | Some e => (None, Some ("failed to map cfg err: " +:+ e))
                   | None => (Some (length (heap st)), None)
                   end),
                  set_heap (λ h, h ++ [{| fileName := p; watch := false; cfg := Some f |}]) st)
        | (None, None) => None
        end
    end.
Proof.
  unfold LoadIniConfig, MapContents.
  destruct (ini_Load env p) as [cf1 [e|]] eqn:HL1; [done |].
  run. rewrite list_lookup_middle by done. simpl.
  destruct (ini_Load env' p) as [cf [e|]] eqn:HL; simpl.
  - unfold set_heap. simpl. rewrite alter_snoc. unfold with_cfg. simpl.
    by destruct cf.
  - destruct cf as [f|]; simpl; [| done].
    unfold set_heap. simpl. rewrite alter_snoc. unfold with_cfg. simpl.
    by destruct (MapTo f c) as [c' [e|]].
Qed.

(** [LoadIniConfig] either leaves the state alone or allocates one handle,
    unwatched; the handle it returns is that one. *)
Lemma LoadIniConfig_state `{Mappable V} env env' p (c : V) st r st' :
  LoadIniConfig env env' p c st = Some (r, st') →
  (st' = st ∧ r.2.1 = None) ∨
  ∃ cf, st' = set_heap (λ h, h ++ [{| fileName := p; watch := false; cfg := cf |}]) st ∧
        (r.2.1 = None ∨ r.2.1 = Some (length (heap st))).
Proof.
  rewrite LoadIniConfig_outcome.
  destruct (ini_Load env p) as [cf1 [e|]].
  { intros [= <- <-]. by left. }
  destruct (ini_Load env' p) as [[f|] [e|]]; [| | | done].
  - intros [= <- <-]. right. eexists. split; [done |]. by left.
  - intros [= <- <-]. right. eexists. split; [done |].
    destruct (MapTo f c).2; simpl; auto.
  - intros [= <- <-]. right. eexists. split; [done |]. by left.
Qed.

(** ** Write events *)

(** C5. On an event with the write bit, the loop started by [keepWatch]
    runs [load] and then [update], whether or not the load failed, and the
    loop started by [newKeepWatch] runs [update] alone; [update] starts every
    callback registered for the handle's path once. *)
Theorem loop_on_write env k fd event st d :
  heap st !! fd = Some d →
  Z.land (Op event) fsnotify_Write = fsnotify_Write →
  match k with
  | LoadAndUpdate =>
      ∃ st1 tl,
        load env fd st = Some ((ini_Load env (fileName d)).2, st1) ∧
        trace st1 = trace st ++ [EvLoad fd (ini_Load env (fileName d)).2] ++ tl ∧
        (∀ f, EvCallback f ∉ tl) ∧
        loop_body env k fd event st =
          Some (tt, emit (EvCallback <$> registered d st) st1)
  | UpdateOnly =>
      loop_body env k fd event st =
        Some (tt, emit (EvCallback <$> registered d st) st)
  end.
Proof.
  intros Hd Hop. unfold loop_body. rewrite decide_True by done.
  destruct k; [| by apply update_outcome].
  destruct (load_outcome env fd st d Hd)
    as (st1 & tl & Hload & Htr & Hup & _ & Hcases).
  exists st1, tl. split; [done |]. split; [done |]. split.
  { intros f Hin.
    destruct Hcases as [(-> & _) | [(-> & _) | (-> & _)]];
      repeat (apply elem_of_cons in Hin as [Hin | Hin]; [done |]);
      by apply elem_of_nil in Hin. }
  unfold mbind, M_bind. rewrite Hload.
  assert (∃ d1, heap st1 !! fd = Some d1 ∧ fileName d1 = fileName d) as (d1 & Hd1 & Hn).
  { destruct Hcases as [(_ & -> & _) | [(_ & _ & -> & _) | (_ & _ & _ & _ & _ & -> & _)]];
      rewrite ?list_lookup_alter_eq, Hd; simpl; eauto. }
  rewrite (update_outcome fd st1 d1 Hd1). unfold registered.
  by rewrite Hup, Hn.
Qed.

Lemma loop_on_write_witness :
  heap st_subscribed !! 0 =
    Some {| fileName := "app.ini"; watch := true; cfg := Some server_ini |} ∧
  Z.land (Op write_event) fsnotify_Write = fsnotify_Write ∧
  registered {| fileName := "app.ini"; watch := true; cfg := Some server_ini |}
    st_subscribed = [7; 8] ∧
  loop_body env_bad LoadAndUpdate 0 write_event st_subscribed =
    Some (tt, emit [EvCallback 7; EvCallback 8]
                (loaded 0 None (Some "unclosed section: [server") st_subscribed)) ∧
  loop_body env_bad UpdateOnly 0 write_event st_subscribed =
    Some (tt, emit [EvCallback 7; EvCallback 8] st_subscribed).
Proof.
  split; [reflexivity |]. split; [reflexivity |]. split; [reflexivity |]. split.
  - destruct (loop_on_write env_bad LoadAndUpdate 0 write_event st_subscribed _
                eq_refl eq_refl) as (st1 & tl & Hload & _ & _ & Hrun).
    rewrite Hrun. vm_compute in Hload. injection Hload as <-. reflexivity.
  - rewrite (loop_on_write env_bad UpdateOnly 0 write_event st_subscribed _
               eq_refl eq_refl).
    reflexivity.
Defined.

(** C5, as stated, fails on the loop that [KeepWatch] starts: it takes the
    write event and reloads nothing. *)
Lemma update_only_loop_does_not_reload :
  ¬ reloads_then_updates env_ok UpdateOnly 0 write_event st_both.
Proof.
  intros Hclaim.
  destruct (Hclaim _ eq_refl) as (st' & err & tl & Hrun & Htr & _).
  vm_compute in Hrun. injection Hrun as <-.
  apply (f_equal length) in Htr. rewrite !length_app in Htr. simpl in Htr. lia.
Qed.

(** ** Starting a watch by hand *)

Lemma KeepWatch_error_iff env fd st d r st' :
  heap st !! fd = Some d →
  KeepWatch env fd st = Some (r, st') →
  is_Some r ↔ is_Some (fsnotify_NewWatcher env) ∨ is_Some (fsnotify_Add env (fileName d)).
Proof.
  intros Hd Hrun. unfold KeepWatch in Hrun.
  destruct (newKeepWatch_outcome env fd st d Hd) as (r0 & st0 & Hrun0 & _ & _ & _ & Hc).
  rewrite Hrun0 in Hrun. injection Hrun as -> ->.
  destruct Hc as [(e & HN & -> & _) | [(e & HN & HA & -> & _) | (HN & HA & -> & _)]];
    rewrite ?HN, ?HA; split; eauto.
  intros [[? [=]] | [? [=]]].
Qed.

(** C7. What the code does when [KeepWatch] is called on a handle whose
    watch loop is already running: it returns nil and starts a second loop on
    the same file, so that one write, reported to both watchers, starts each
    registered callback twice. *)
Theorem KeepWatch_starts_second_loop :
  watch <$> heap st_open !! 0 = Some true ∧
  length (watchers st_open) = 1 ∧
  KeepWatch env_ok 0 st_open = Some (None, st_both) ∧
  length (watchers st_both) = 2 ∧
  ∃ st1 st2 st3,
    Register 0 7 st_both = Some (tt, st1) ∧
    loop_body env_ok LoadAndUpdate 0 write_event st1 = Some (tt, st2) ∧
    loop_body env_ok UpdateOnly 0 write_event st2 = Some (tt, st3) ∧
    trace st3 = trace st1 ++ [EvLoad 0 None; EvCallback 7; EvCallback 7].
Proof.
  do 4 (split; [by vm_compute |]).
  eexists _, _, _. split; [by vm_compute |]. split; [by vm_compute |].
  split; by vm_compute.
Qed.

(** ** Loading and decoding in one call *)



(** ** Opening a file whose watch cannot be set up *)

(** C10. When the file parses on a first open but the watcher cannot be made
    or the path cannot be added to it, [NewIniFile] still returns the handle
    and a nil error: the handle is registered and readable, its [watch] flag
    is false, and whatever loop was started watches no path. *)
Theorem NewIniFile_hides_watch_failure env p f st :
  iniFiler st !! p = None →
  ini_Load env p = (Some f, None) →
  is_Some (fsnotify_NewWatcher env) ∨ is_Some (fsnotify_Add env p) →
  ∃ st' ws,
    NewIniFile env p st = Some ((Some (length (heap st)), None), st') ∧
    heap st' = heap st ++ [{| fileName := p; watch := false; cfg := Some f |}] ∧
    iniFiler st' = <[p := length (heap st)]> (iniFiler st) ∧
    (∀ section key defaultVal,
       ∃ v, ReadKey (length (heap st)) section key defaultVal st' = Some (v, st')) ∧
    watchers st' = watchers st ++ ws ∧
    (∀ w, w ∈ ws → w_paths w = []).
Proof.
  intros Hreg HL Hfail. rewrite (NewIniFile_fresh _ _ _ Hreg).
  set (d := {| fileName := p; watch := false; cfg := None |}).
  set (st0 := set_heap (λ h, h ++ [d]) st).
  assert (heap st0 !! length (heap st) = Some d) as Hd
    by (simpl; by apply list_lookup_middle).
  destruct (load_outcome env (length (heap st)) st0 d Hd)
    as (st1 & tl & Hload & _ & _ & Hini & Hcases).
  rewrite Hload. simpl. rewrite HL. simpl.
  assert (heap st1 = heap st ++ [{| fileName := p; watch := false; cfg := Some f |}]
          ∧ ∃ ws, watchers st1 = watchers st ++ ws ∧ ∀ w, w ∈ ws → w_paths w = [])
    as (Hheap & ws & Hws & Hpaths).
  { simpl in Hcases. rewrite HL in Hcases. simpl in Hcases.
    destruct Hcases as [(_ & -> & ->) | [(_ & _ & -> & ->) | (_ & _ & _ & HN & HA & _)]].
    - split; [by rewrite alter_snoc |]. exists []. rewrite app_nil_r.
      split; [done |]. by intros w ?%elem_of_nil.
    - split; [by rewrite alter_snoc |]. eexists. split; [done |].
      by intros w ->%list_elem_of_singleton.
    - rewrite HN, HA in Hfail. by destruct Hfail as [[? [=]] | [? [=]]]. }
  eexists _, ws. split; [done |]. simpl. rewrite Hini. simpl.
  do 2 (split; [done |]). split; [| done].
  intros section key defaultVal. eexists.
  apply (ReadKey_loaded _ _ {| fileName := p; watch := false; cfg := Some f |} f);
    [| done].
  simpl. rewrite Hheap. by apply list_lookup_middle.
Qed.

Lemma NewIniFile_hides_watch_failure_witness :
  ∃ st' ws,
    NewIniFile env_nowatch "app.ini" init = Some ((Some 0, None), st') ∧
    heap st' = [{| fileName := "app.ini"; watch := false; cfg := Some server_ini |}] ∧
    iniFiler st' = {[ "app.ini" := 0 ]} ∧
    (∀ section key defaultVal,
       ∃ v, ReadKey 0 section key defaultVal st' = Some (v, st')) ∧
    watchers st' = ws ∧
    (∀ w, w ∈ ws → w_paths w = []).
Proof.
  apply (NewIniFile_hides_watch_failure env_nowatch "app.ini" server_ini init).
  - reflexivity.
  - reflexivity.
  - left. eexists. reflexivity.
Defined.

(** ** What every move keeps *)

Lemma armings_app fd a b : armings fd (a ++ b) = armings fd a + armings fd b.
Proof. unfold armings. by rewrite filter_app, length_app. Qed.

Lemma armings_callbacks fd (l : list updateFunc) : armings fd (EvCallback <$> l) = 0.
Proof.
  unfold armings. induction l as [| f l IH]; [done |].
  simpl. by rewrite filter_cons_False.
Qed.

Lemma flag_alter_with_cfg c fd h fd' : flag (alter (with_cfg c) fd h) fd' = flag h fd'.
Proof.
  unfold flag. destruct (decide (fd = fd')) as [<- | Hne].
  - rewrite list_lookup_alter_eq. by destruct (h !! fd).
  - by rewrite list_lookup_alter_ne.
Qed.

Lemma flag_snoc h d fd : watch d = false → flag (h ++ [d]) fd = flag h fd.
Proof.
  intros Hw. unfold flag. destruct (h !! fd) as [d0|] eqn:Hfd.
  - by rewrite (lookup_app_l_Some _ _ _ _ Hfd).
  - apply lookup_ge_None in Hfd. rewrite lookup_app_r by done.
    destruct (fd - length h) as [| n]; simpl; [by rewrite Hw | done].
Qed.

Lemma flag_alter_with_watch h fd d fd' :
  h !! fd = Some d → watch d = false →
  flag (alter (with_watch true) fd h) fd' =
    flag h fd' + (if decide (fd' = fd) then 1 else 0).
Proof.
  intros Hd Hw. unfold flag. case_decide as Heq.
  - subst fd'. rewrite list_lookup_alter_eq, Hd. simpl. by rewrite Hw.
  - rewrite list_lookup_alter_ne by done. destruct (h !! fd') as [d'|]; [| done].
    destruct (watch d'); lia.
Qed.

Lemma evolves_refl st : evolves st st.
Proof. by repeat split. Qed.

Lemma evolves_trans st1 st2 st3 : evolves st1 st2 → evolves st2 st3 → evolves st1 st3.
Proof.
  intros (Hr1 & Hf1 & Ha1) (Hr2 & Hf2 & Ha2). repeat split; auto.
  intros fd. etrans; [apply Hf1 | apply Hf2].
Qed.

(** A move that keeps the registry and every flag and sets none. *)
Lemma evolves_frame st st' tl :
  iniFiler st' = iniFiler st →
  (∀ fd, flag (heap st') fd = flag (heap st) fd) →
  trace st' = trace st ++ tl → (∀ fd, armings fd tl = 0) →
  evolves st st'.
Proof.
  intros Hini Hflag Htr Htl. split; [by rewrite Hini |]. split.
  - intros fd. by rewrite Hflag.
  - intros Hinv fd. rewrite Htr, armings_app, Htl, Hflag, <- Hinv. lia.
Qed.

Lemma load_evolves env fd st r st' :
  load env fd st = Some (r, st') → evolves st st'.
Proof.
  intros Hrun. destruct (heap st !! fd) as [d|] eqn:Hd.
  2: { unfold load in Hrun. revert Hrun. run. by rewrite Hd. }
  destruct (load_outcome env fd st d Hd) as (st1 & tl & Hload & Htr & _ & Hini & Hc).
  rewrite Hload in Hrun. injection Hrun as _ <-.
  destruct Hc as [(-> & Hh & _) | [(-> & _ & Hh & _) | (-> & Hw & _ & _ & _ & Hh & _)]].
  - eapply evolves_frame; [done | | done |].
    + intros fd'. by rewrite Hh, flag_alter_with_cfg.
    + intros fd'. by unfold armings.
  - eapply evolves_frame; [done | | done |].
    + intros fd'. by rewrite Hh, flag_alter_with_cfg.
    + intros fd'. by unfold armings.
  - assert (∀ fd', flag (heap st1) fd' =
                   flag (heap st) fd' + (if decide (fd' = fd) then 1 else 0)) as Hflag.
    { intros fd'. rewrite Hh.
      rewrite (flag_alter_with_watch _ fd (with_cfg (ini_Load env (fileName d)).1 d));
        [| by rewrite list_lookup_alter_eq, Hd | done].
      by rewrite flag_alter_with_cfg. }
    split; [by rewrite Hini |]. split.
    + intros fd'. rewrite Hflag. lia.
    + intros Hinv fd'. rewrite Htr, armings_app, Hflag, <- Hinv.
      f_equal. unfold armings. simpl. rewrite !filter_cons_False by done.
      case_decide as Heq.
      * subst fd'. by rewrite filter_cons_True.
      * rewrite filter_cons_False; [done |]. intros [= ->]. done.
Qed.

Lemma update_evolves fd st r st' :
  update fd st = Some (r, st') → evolves st st'.
Proof.
  intros Hrun. destruct (heap st !! fd) as [d|] eqn:Hd.
  2: { unfold update in Hrun. revert Hrun. run. by rewrite Hd. }
  rewrite (update_outcome fd st d Hd) in Hrun. injection Hrun as _ <-.
  eapply evolves_frame; [done | done | done |].
  intros fd'. apply armings_callbacks.
Qed.

Lemma newKeepWatch_evolves env fd st r st' :
  newKeepWatch env fd st = Some (r, st') → evolves st st'.
Proof.
  intros Hrun. destruct (heap st !! fd) as [d|] eqn:Hd.
  2: { unfold newKeepWatch in Hrun. revert Hrun.
       destruct (fsnotify_NewWatcher env); run.
       - intros [= _ <-]. apply evolves_refl.
       - by rewrite Hd. }
  destruct (newKeepWatch_outcome env fd st d Hd) as (r0 & st0 & Hrun0 & Hh & Hini & _ & Hc).
  rewrite Hrun0 in Hrun. injection Hrun as _ <-.
  destruct Hc as [(e & _ & _ & ->) | [(e & _ & _ & _ & _ & Htr) | (_ & _ & _ & _ & Htr)]].
  - apply evolves_refl.
  - eapply evolves_frame; [done | by rewrite Hh | done |].
    intros fd'. by unfold armings.
  - eapply evolves_frame; [done | by rewrite Hh | done |].
    intros fd'. by unfold armings.
Qed.

Lemma set_heap_evolves st g :
  (∀ fd, flag (g (heap st)) fd = flag (heap st) fd) →
  evolves st (set_heap g st).
Proof.
  intros Hflag. apply (evolves_frame _ _ []); simpl; auto.
  by rewrite app_nil_r.
Qed.

Lemma step_evolves st st' : step st st' → evolves st st'.
Proof.
  intros Hstep. destruct Hstep as
    [env p r st st' Hrun | V HV env env' p c r st st' Hrun
    | fd section key defaultVal r st st' Hrun | fd f r st st' Hrun
    | env fd r st st' Hrun | V HV env fd v r st st' Hrun
    | env i w event r st st' Hw Hin Hrun].
  - destruct (iniFiler st !! p) as [f|] eqn:Hreg.
    { rewrite (NewIniFile_registered _ _ _ _ Hreg) in Hrun.
      injection Hrun as _ <-. apply evolves_refl. }
    rewrite (NewIniFile_fresh _ _ _ Hreg) in Hrun.
    destruct (load _ _ _) as [[err st1]|] eqn:Hload; [| done].
    apply load_evolves in Hload.
    assert (evolves st st1) as Hev.
    { eapply evolves_trans; [| exact Hload].
      apply set_heap_evolves. intros fd. by apply flag_snoc. }
    destruct err as [e|]; injection Hrun as _ <-; [done |].
    destruct Hev as (Hr & Hf & Ha). repeat split; auto.
    intros p' h Hp'. simpl. rewrite lookup_insert_ne; [by apply Hr |].
    intros ->. by rewrite Hreg in Hp'.
  - apply LoadIniConfig_state in Hrun as [[-> _] | (cf & -> & _)];
      [apply evolves_refl |].
    apply set_heap_evolves. intros fd. by apply flag_snoc.
  - unfold ReadKey in Hrun. revert Hrun. run.
    destruct (heap st !! fd) as [d|]; [| done]. simpl.
    destruct (cfg d); [| done]. case_decide; intros [= _ <-]; apply evolves_refl.
  - destruct (heap st !! fd) as [d|] eqn:Hd.
    2: { unfold Register in Hrun. revert Hrun. run. by rewrite Hd. }
    rewrite (Register_outcome fd f st d Hd) in Hrun. injection Hrun as _ <-.
    apply (evolves_frame _ _ []); simpl; auto. by rewrite app_nil_r.
  - by apply newKeepWatch_evolves in Hrun.
  - apply MapContents_outcome in Hrun as (d & Hd & -> & _).
    apply set_heap_evolves. intros fd'. apply flag_alter_with_cfg.
  - unfold loop_body in Hrun. case_decide.
    2: { injection Hrun as _ <-. apply evolves_refl. }
    destruct (w_loop w).
    + revert Hrun. unfold mbind, M_bind.
      destruct (load env (w_fd w) st) as [[err st1]|] eqn:Hload; [| done].
      intros Hup. eapply evolves_trans.
      * by eapply load_evolves.
      * by eapply update_evolves.
    + by eapply update_evolves.
Qed.

Lemma steps_evolves st st' : steps st st' → evolves st st'.
Proof.
  induction 1 as [st | st1 st2 st3 Hstep _ IH].
  - apply evolves_refl.
  - eapply evolves_trans; [by apply step_evolves | done].
Qed.


Lemma steps_st_open : steps init st_open.
Proof.
  apply rtc_once.
  apply (step_NewIniFile env_ok "app.ini" (Some 0, None)). by vm_compute.
Qed.

Lemma steps_st_both : steps st_open st_both.
Proof.
  apply rtc_once. apply (step_KeepWatch env_ok 0 None). by vm_compute.
Qed.

(** ** One handle per path *)

(** C4. Once [NewIniFile] has returned a handle for a path, the registry
    holds that handle under the path for good, and every later
    [NewIniFile] of the path, whatever has happened to the file, returns the
    same handle with a nil error and changes nothing. *)
Theorem NewIniFile_idempotent env p st h st1 :
  NewIniFile env p st = Some ((Some h, None), st1) →
  iniFiler st1 !! p = Some h ∧
  ∀ st2, steps st1 st2 →
    iniFiler st2 !! p = Some h ∧
    ∀ env', NewIniFile env' p st2 = Some ((Some h, None), st2).
Proof.
  intros Hrun.
  assert (iniFiler st1 !! p = Some h) as Hreg1.
  { destruct (iniFiler st !! p) as [f|] eqn:Hreg.
    - rewrite (NewIniFile_registered _ _ _ _ Hreg) in Hrun.
      by injection Hrun as -> ->.
    - rewrite (NewIniFile_fresh _ _ _ Hreg) in Hrun.
      destruct (load _ _ _) as [[[e|] st0]|]; try done.
      injection Hrun as <- <-. simpl. apply lookup_insert_eq. }
  split; [done |]. intros st2 Hsteps.
  apply steps_evolves in Hsteps as (Hmono & _).
  specialize (Hmono p h Hreg1). split; [done |].
  intros env'. by apply NewIniFile_registered.
Qed.

Lemma NewIniFile_idempotent_witness :
  NewIniFile env_ok "app.ini" init = Some ((Some 0, None), st_open) ∧
  steps st_open st_both ∧
  NewIniFile env_bad "app.ini" st_both = Some ((Some 0, None), st_both).
Proof.
  assert (NewIniFile env_ok "app.ini" init = Some ((Some 0, None), st_open)) as Hopen
    by (by vm_compute).
  split; [exact Hopen |]. split; [exact steps_st_both |].
  destruct (NewIniFile_idempotent env_ok "app.ini" init 0 st_open Hopen) as [_ Hlater].
  destruct (Hlater st_both steps_st_both) as [_ Hagain].
  apply Hagain.
Defined.

(** ** Arming the watch *)




(** ** Subscribers *)

Lemma registered_Register d st f :
  registered d (set_updaters (λ u,
    <[fileName d := default [] (u !! fileName d) ++ [f]]> u) st)
  = registered d st ++ [f].
Proof. unfold registered. simpl. by rewrite lookup_insert_eq. Qed.

(** X1. [Register] puts the callback at the end of the list kept under the
    handle's file name, leaves the lists of all other files alone, and
    touches nothing else: it neither calls the callback nor starts a
    watch. *)
Theorem Register_appends fd f st d :
  heap st !! fd = Some d →
  ∃ st', Register fd f st = Some (tt, st') ∧
    registered d st' = registered d st ++ [f] ∧
    (∀ p, p ≠ fileName d → updaters st' !! p = updaters st !! p) ∧
    heap st' = heap st ∧ iniFiler st' = iniFiler st ∧
    watchers st' = watchers st ∧ trace st' = trace st.
Proof.
  intros Hd. eexists. split; [by apply Register_outcome |].
  split; [by apply registered_Register |]. split; [| done].
  intros p Hp. simpl. by rewrite lookup_insert_ne.
Qed.

Lemma Register_appends_witness :
  heap st_open !! 0 =
    Some {| fileName := "app.ini"; watch := true; cfg := Some server_ini |} ∧
  ∃ st', Register 0 7 st_open = Some (tt, st') ∧
    updaters st' !! "app.ini" = Some [7] ∧
    updaters st' !! "other.ini" = None ∧
    trace st' = trace st_open.
Proof.
  split; [reflexivity |].
  destruct (Register_appends 0 7 st_open _ eq_refl)
    as (st' & Hrun & Hreg & Hother & _ & _ & _ & Htr).
  exists st'. split; [exact Hrun |]. split.
  - vm_compute in Hrun. injection Hrun as <-. reflexivity.
  - split; [| exact Htr]. rewrite Hother; [reflexivity |]. vm_compute. discriminate.
Defined.

(** X2. The subscriber table is keyed by file name, not by handle: a
    callback registered through one handle is started by [update] on any
    other handle of the same file, after the callbacks that were registered
    before it. *)
Theorem Register_reaches_handles_of_same_file fd1 fd2 f st d1 d2 :
  heap st !! fd1 = Some d1 → heap st !! fd2 = Some d2 →
  fileName d1 = fileName d2 →
  ∃ st1 st2,
    Register fd1 f st = Some (tt, st1) ∧
    update fd2 st1 = Some (tt, st2) ∧
    trace st2 = trace st ++ (EvCallback <$> registered d2 st) ++ [EvCallback f].
Proof.
  intros Hd1 Hd2 Hname. eexists _, _.
  split; [by apply Register_outcome |].
  split; [by apply (update_outcome fd2 _ d2) |].
  simpl. unfold registered at 1. simpl. rewrite Hname, lookup_insert_eq. simpl.
  by rewrite fmap_app.
Qed.

Lemma Register_reaches_handles_of_same_file_witness :
  ∃ st1 st2,
    Register 1 7 st_two = Some (tt, st1) ∧
    update 0 st1 = Some (tt, st2) ∧
    trace st2 = trace st_two ++ [EvCallback 7].
Proof.
  exact (Register_reaches_handles_of_same_file 1 0 7 st_two _ _
           eq_refl eq_refl eq_refl).
Defined.

(** X3. Nothing is deduplicated: a callback registered twice is started
    twice by every [update]. *)
Theorem Register_twice_calls_twice fd f st d :
  heap st !! fd = Some d →
  ∃ st1 st2 st3,
    Register fd f st = Some (tt, st1) ∧
    Register fd f st1 = Some (tt, st2) ∧
    update fd st2 = Some (tt, st3) ∧
    trace st3 =
      trace st ++ (EvCallback <$> registered d st) ++ [EvCallback f; EvCallback f].
Proof.
  intros Hd. eexists _, _, _.
  split; [by apply Register_outcome |].
  split; [by apply (Register_outcome fd f _ d) |].
  split; [by apply (update_outcome fd _ d) |].
  simpl. rewrite !registered_Register, <- app_assoc. simpl.
  by rewrite fmap_app.
Qed.

Lemma Register_twice_calls_twice_witness :
  ∃ st1 st2 st3,
    Register 0 7 st_open = Some (tt, st1) ∧
    Register 0 7 st1 = Some (tt, st2) ∧
    update 0 st2 = Some (tt, st3) ∧
    trace st3 = trace st_open ++ [EvCallback 7; EvCallback 7].
Proof.
  exact (Register_twice_calls_twice 0 7 st_open _ eq_refl).
Defined.

(** ** Opening a file *)

(** X4. When the file of a first open cannot be loaded, [NewIniFile]
    returns the error of [ini.Load] as it is and no handle; nothing is
    registered under the path, no watch is started and no subscriber list
    is touched: the one load is all that happened. *)
Theorem NewIniFile_load_error env p c e st :
  iniFiler st !! p = None →
  ini_Load env p = (c, Some e) →
  ∃ st', NewIniFile env p st = Some ((None, Some e), st') ∧
    iniFiler st' = iniFiler st ∧ watchers st' = watchers st ∧
    updaters st' = updaters st ∧
    trace st' = trace st ++ [EvLoad (length (heap st)) (Some e)].
Proof.
  intros Hreg HL. rewrite (NewIniFile_fresh _ _ _ Hreg).
  set (d := {| fileName := p; watch := false; cfg := None |}).
  rewrite (load_error env _ _ d c e); [| simpl; by apply list_lookup_middle | done].
  eexists. split; [done |]. done.
Qed.

Lemma NewIniFile_load_error_witness :
  ∃ st', NewIniFile env_ok "missing.ini" st_open =
      Some ((None, Some "open missing.ini: no such file or directory"), st') ∧
    iniFiler st' = iniFiler st_open ∧ watchers st' = watchers st_open ∧
    updaters st' = updaters st_open ∧
    trace st' = trace st_open ++
      [EvLoad 1 (Some "open missing.ini: no such file or directory")].
Proof.
  apply (NewIniFile_load_error env_ok "missing.ini" None
           "open missing.ini: no such file or directory" st_open).
  - reflexivity.
  - reflexivity.
Defined.

(** X5. A first open of a file that loads, with the watch facility working,
    allocates one handle holding what [ini.Load] returned, sets its [watch]
    flag, registers it under the path and starts exactly one loop, the
    reloading one, on that path. *)
Theorem NewIniFile_arms_watch env p c st :
  iniFiler st !! p = None →
  ini_Load env p = (c, None) →
  fsnotify_NewWatcher env = None → fsnotify_Add env p = None →
  ∃ st', NewIniFile env p st = Some ((Some (length (heap st)), None), st') ∧
    heap st' = heap st ++ [{| fileName := p; watch := true; cfg := c |}] ∧
    iniFiler st' = <[p := length (heap st)]> (iniFiler st) ∧
    watchers st' = watchers st ++
      [{| w_fd := length (heap st); w_loop := LoadAndUpdate; w_paths := [p] |}] ∧
    updaters st' = updaters st.
Proof.
  intros Hreg HL HN HA. rewrite (NewIniFile_fresh _ _ _ Hreg).
  set (d := {| fileName := p; watch := false; cfg := None |}).
  set (st0 := set_heap (λ h, h ++ [d]) st).
  assert (heap st0 !! length (heap st) = Some d) as Hd
    by (simpl; by apply list_lookup_middle).
  rewrite (load_arming env _ st0 d c Hd HL eq_refl).
  rewrite (keepWatch_ok env _ _ (with_cfg c d) HN (loaded_lookup _ _ _ _ _ Hd)) by done.
  eexists. split; [done |]. simpl. by rewrite !alter_snoc.
Qed.

Lemma NewIniFile_arms_watch_witness :
  ∃ st', NewIniFile env_ok "app.ini" init = Some ((Some 0, None), st') ∧
    heap st' = [{| fileName := "app.ini"; watch := true; cfg := Some server_ini |}] ∧
    iniFiler st' = {[ "app.ini" := 0 ]} ∧
    watchers st' = [{| w_fd := 0; w_loop := LoadAndUpdate; w_paths := ["app.ini"] |}] ∧
    updaters st' = ∅.
Proof.
  apply (NewIniFile_arms_watch env_ok "app.ini" (Some server_ini) init).
  - reflexivity.
  - reflexivity.
  - reflexivity.
  - reflexivity.
Defined.

(** ** Refreshing the snapshot *)



(** X7. [MapContents] is a reload as well: when the file parses, the
    handle's snapshot becomes the file just read, whether or not the decode
    into the record then fails, and the result is that of [MapTo] as it is;
    the registry, the subscribers, the watchers and the [watch] flag are not
    touched. *)
Theorem MapContents_refreshes `{Mappable V} env fd (v : V) st d f :
  heap st !! fd = Some d →
  ini_Load env (fileName d) = (Some f, None) →
  ∃ st', MapContents env fd v st = Some (MapTo f v, st') ∧
    heap st' !! fd = Some (with_cfg (Some f) d) ∧
    (∀ section key defaultVal,
       ReadKey fd section key defaultVal st' =
         Some (if decide (Section_Key_String (File_Section f section) key ≠ "")
               then Section_Key_String (File_Section f section) key
               else defaultVal, st')) ∧
    iniFiler st' = iniFiler st ∧ updaters st' = updaters st ∧
    watchers st' = watchers st ∧ trace st' = trace st.
Proof.
  intros Hd HL. unfold MapContents. run. rewrite Hd. simpl. rewrite HL. simpl.
  eexists. split; [done |]. simpl.
  assert (alter (with_cfg (Some f)) fd (heap st) !! fd = Some (with_cfg (Some f) d))
    as Hd1 by (by rewrite list_lookup_alter_eq, Hd).
  split; [done |]. split; [| done].
  intros section key defaultVal. by apply (ReadKey_loaded _ _ (with_cfg (Some f) d)).
Qed.

Lemma MapContents_refreshes_witness :
  ∃ st', MapContents env_new 0 ByValue st_open =
      Some ((ByValue, Some "cannot map to non-pointer struct"), st') ∧
    ReadKey 0 "server" "port" "0" st' = Some ("9000", st') ∧
    watchers st' = watchers st_open.
Proof.
  destruct (MapContents_refreshes env_new 0 ByValue st_open _ server_ini'
              eq_refl eq_refl) as (st' & Hrun & _ & Hread & _ & _ & Hw & _).
  exists st'. split; [exact Hrun |]. split; [| exact Hw].
  rewrite Hread. reflexivity.
Defined.

(** ** Errors of the watch facility *)

(** X8. On an allocated handle [KeepWatch] always returns; it returns nil
    exactly when the watcher could be made and the path added, and then one
    more loop, of the kind that only notifies, watches the handle's file.
    When the watcher cannot be made, nothing at all has changed. *)
Theorem KeepWatch_result env fd st d :
  heap st !! fd = Some d →
  ∃ r st', KeepWatch env fd st = Some (r, st') ∧
    (r = None ↔
       fsnotify_NewWatcher env = None ∧ fsnotify_Add env (fileName d) = None) ∧
    (r = None →
       watchers st' = watchers st ++
         [{| w_fd := fd; w_loop := UpdateOnly; w_paths := [fileName d] |}]) ∧
    (∀ e, fsnotify_NewWatcher env = Some e →
       r = Some ("failed to create new watcher for INI file err: " +:+ e) ∧ st' = st) ∧
    heap st' = heap st.
Proof.
  intros Hd. unfold KeepWatch.
  destruct (newKeepWatch_outcome env fd st d Hd)
    as (r & st' & Hrun & Hh & _ & _ & Hc).
  exists r, st'. split; [done |].
  destruct Hc as [(e & HN & -> & ->) | [(e & HN & HA & -> & _) | (HN & HA & -> & Hws & _)]].
  - rewrite HN. split; [split; [done | by intros [[=] _]] |].
    split; [done |]. split; [| done]. by intros e' [= <-].
  - rewrite HN, HA. split; [split; [done | by intros [_ [=]]] |].
    split; [done |]. split; [| done]. by intros e' [=].
  - rewrite HN, HA. split; [done |].
    split; [done |]. split; [| done]. by intros e' [=].
Qed.

Lemma KeepWatch_result_witness :
  ∃ r st', KeepWatch env_nowatch 0 st_open = Some (r, st') ∧
    (r = None ↔
       fsnotify_NewWatcher env_nowatch = None ∧
       fsnotify_Add env_nowatch "app.ini" = None) ∧
    (r = None →
       watchers st' = watchers st_open ++
         [{| w_fd := 0; w_loop := UpdateOnly; w_paths := ["app.ini"] |}]) ∧
    (∀ e, fsnotify_NewWatcher env_nowatch = Some e →
       r = Some ("failed to create new watcher for INI file err: " +:+ e) ∧
       st' = st_open) ∧
    heap st' = heap st_open.
Proof.
  exact (KeepWatch_result env_nowatch 0 st_open _ eq_refl).
Defined.

(** X9. When the watcher is made but the path cannot be added to it,
    [KeepWatch] returns the error and yet leaves the loop it has already
    started, reading from a watcher with no path. *)
Theorem KeepWatch_Add_error_leaves_loop env fd st d e :
  heap st !! fd = Some d →
  fsnotify_NewWatcher env = None →
  fsnotify_Add env (fileName d) = Some e →
  ∃ st', KeepWatch env fd st =
      Some (Some ("Failed add new watcher for INI file err: " +:+ e), st') ∧
    watchers st' = watchers st ++
      [{| w_fd := fd; w_loop := UpdateOnly; w_paths := [] |}] ∧
    heap st' = heap st ∧ iniFiler st' = iniFiler st ∧ updaters st' = updaters st.
Proof.
  intros Hd HN HA. unfold KeepWatch.
  destruct (newKeepWatch_outcome env fd st d Hd)
    as (r & st' & Hrun & Hh & Hini & Hup & Hc).
  exists st'. rewrite HN, HA in Hc.
  destruct Hc as [(e' & [=] & _) | [(e' & _ & [= <-] & -> & Hws & _) | (_ & [=] & _)]].
  by rewrite Hrun.
Qed.

Lemma KeepWatch_Add_error_leaves_loop_witness :
  ∃ st', KeepWatch env_noadd 0 st_open =
      Some (Some "Failed add new watcher for INI file err: no space left on device", st') ∧
    watchers st' = watchers st_open ++
      [{| w_fd := 0; w_loop := UpdateOnly; w_paths := [] |}] ∧
    heap st' = heap st_open ∧ iniFiler st' = iniFiler st_open ∧
    updaters st' = updaters st_open.
Proof.
  apply (KeepWatch_Add_error_leaves_loop env_noadd 0 st_open _
           "no space left on device" eq_refl).
  - reflexivity.
  - reflexivity.
Defined.

(** ** The test on the event *)

Lemma land_lor_self (a b : Z) : Z.land (Z.lor a b) a = a.
Proof.
  apply Z.bits_inj'. intros n _. rewrite Z.land_spec, Z.lor_spec.
  by destruct (Z.testbit a n), (Z.testbit b n).
Qed.

(** X10. The loops test the write bit and nothing else: a write reported
    together with any other operations is acted on like a plain write. *)
Theorem write_with_other_operations env k fd name other st :
  loop_body env k fd {| Name := name; Op := Z.lor fsnotify_Write other |} st =
  loop_body env k fd {| Name := name; Op := fsnotify_Write |} st.
Proof.
  unfold loop_body. cbn [Op]. rewrite land_lor_self, Z.land_diag.
  by rewrite !decide_True.
Qed.

(** X11. [ReadKey] hands out the empty string only when the caller's
    default is the empty string. *)
Theorem ReadKey_empty_only_by_default fd section key defaultVal st st' :
  ReadKey fd section key defaultVal st = Some ("", st') → defaultVal = "".
Proof.
  unfold ReadKey. run. destruct (heap st !! fd) as [d|]; [| done]. simpl.
  destruct (cfg d) as [f|]; [| done].
  case_decide as Hval; intros [= Hr _]; [by rewrite Hr in Hval | done].
Qed.

Lemma ReadKey_empty_only_by_default_witness :
  ReadKey 0 "server" "missing" "" st_open = Some ("", st_open) ∧ "" = "".
Proof.
  assert (ReadKey 0 "server" "missing" "" st_open = Some ("", st_open)) as Hrun
    by (by vm_compute).
  split; [exact Hrun |].
  exact (ReadKey_empty_only_by_default 0 "server" "missing" "" st_open st_open Hrun).
Defined.

(** ** Every move is a chain of elementary changes *)

Lemma state_ext st1 st2 :
  heap st1 = heap st2 → iniFiler st1 = iniFiler st2 →
  updaters st1 = updaters st2 → watchers st1 = watchers st2 →
  trace st1 = trace st2 → st1 = st2.
Proof. destruct st1, st2. simpl. by intros -> -> -> -> ->. Qed.

Lemma prims_to st1 st2 st3 : rtc prim st1 st2 → st2 = st3 → rtc prim st1 st3.
Proof. by intros H <-. Qed.

Lemma load_prims env fd st r st' :
  load env fd st = Some (r, st') → rtc prim st st'.
Proof.
  intros Hrun. destruct (heap st !! fd) as [d|] eqn:Hd.
  2: { unfold load in Hrun. revert Hrun. run. by rewrite Hd. }
  destruct (load_outcome env fd st d Hd) as (st1 & tl & Hload & Htr & Hup & Hini & Hc).
  rewrite Hload in Hrun. injection Hrun as _ <-.
  set (c := (ini_Load env (fileName d)).1) in *.
  assert (heap (set_heap (alter (with_cfg c) fd) st) !! fd = Some (with_cfg c d)) as Hd1
    by (simpl; by rewrite list_lookup_alter_eq, Hd).
  eapply rtc_l; [apply (prim_cfg st fd c) |].
  destruct Hc as [(_ & Hh & Hw) | [(_ & _ & Hh & Hw) | (_ & Hwatch & _ & _ & _ & Hh & Hw)]].
  - eapply prims_to; [apply rtc_once, (prim_trace _ (trace st1)) |].
    by apply state_ext.
  - eapply rtc_l; [apply (prim_idle _ fd LoadAndUpdate _ Hd1) |].
    eapply prims_to; [apply rtc_once, (prim_trace _ (trace st1)) |].
    by apply state_ext.
  - eapply rtc_l; [apply (prim_arm _ fd _ Hd1 Hwatch) |].
    eapply prims_to; [apply rtc_once, (prim_trace _ (trace st1)) |].
    by apply state_ext.
Qed.

Lemma update_prims fd st r st' :
  update fd st = Some (r, st') → rtc prim st st'.
Proof.
  intros Hrun. destruct (heap st !! fd) as [d|] eqn:Hd.
  2: { unfold update in Hrun. revert Hrun. run. by rewrite Hd. }
  rewrite (update_outcome fd st d Hd) in Hrun. injection Hrun as _ <-.
  apply rtc_once. apply (prim_trace st).
Qed.

Lemma newKeepWatch_prims env fd st r st' :
  newKeepWatch env fd st = Some (r, st') → rtc prim st st'.
Proof.
  intros Hrun. destruct (heap st !! fd) as [d|] eqn:Hd.
  2: { unfold newKeepWatch in Hrun. revert Hrun.
       destruct (fsnotify_NewWatcher env); run.
       - intros [= _ <-]. apply rtc_refl.
       - by rewrite Hd. }
  destruct (newKeepWatch_outcome env fd st d Hd) as (r0 & st0 & Hrun0 & Hh & Hini & Hup & Hc).
  rewrite Hrun0 in Hrun. injection Hrun as _ <-.
  destruct Hc as [(e & _ & _ & ->) | [(e & _ & _ & _ & Hw & Htr) | (_ & _ & _ & Hw & Htr)]].
  - apply rtc_refl.
  - eapply rtc_l; [apply (prim_idle _ fd UpdateOnly _ Hd) |].
    eapply prims_to; [apply rtc_once, (prim_trace _ (trace st0)) |].
    by apply state_ext.
  - eapply rtc_l; [apply (prim_update_loop _ fd _ Hd) |].
    eapply prims_to; [apply rtc_once, (prim_trace _ (trace st0)) |].
    by apply state_ext.
Qed.

Lemma prim_heap st st' fd d :
  prim st st' → heap st !! fd = Some d →
  ∃ d', heap st' !! fd = Some d' ∧ fileName d' = fileName d.
Proof.
  intros Hprim Hd.
  destruct Hprim as [st d0 _ | st fd0 c | | | st fd0 d0 _ _ | | |]; simpl; eauto.
  - exists d. split; [by apply lookup_app_l_Some | done].
  - destruct (decide (fd0 = fd)) as [-> | Hne].
    + rewrite list_lookup_alter_eq, Hd. simpl. eauto.
    + rewrite list_lookup_alter_ne by done. eauto.
  - destruct (decide (fd0 = fd)) as [-> | Hne].
    + rewrite list_lookup_alter_eq, Hd. simpl. eauto.
    + rewrite list_lookup_alter_ne by done. eauto.
Qed.

Lemma grows_refl st : grows st st.
Proof.
  split; [eauto | |done].
  intros p l Hl. exists []. by rewrite app_nil_r.
Qed.

Lemma grows_trans st1 st2 st3 : grows st1 st2 → grows st2 st3 → grows st1 st3.
Proof.
  intros [Hh1 Hu1 Hw1] [Hh2 Hu2 Hw2]. split.
  - intros fd d Hd. destruct (Hh1 fd d Hd) as (d' & Hd' & Hn').
    destruct (Hh2 fd d' Hd') as (d'' & Hd'' & Hn''). exists d''. split; [done |].
    by rewrite Hn''.
  - intros p l Hl. destruct (Hu1 p l Hl) as (l' & Hl').
    destruct (Hu2 p _ Hl') as (l'' & Hl''). exists (l' ++ l'').
    by rewrite app_assoc.
  - by etrans.
Qed.

Lemma prim_grows st st' : prim st st' → grows st st'.
Proof.
  intros Hprim. split.
  - intros fd d Hd. by eapply prim_heap.
  - intros p l Hl.
    destruct Hprim as [| | | | | st fd d f Hd | |]; simpl;
      try (exists []; by rewrite app_nil_r).
    destruct (decide (fileName d = p)) as [<- | Hne].
    + exists [f]. by rewrite lookup_insert_eq, Hl.
    + exists []. by rewrite lookup_insert_ne, app_nil_r.
  - destruct Hprim; simpl; try done; by apply prefix_app_r.
Qed.

Lemma prims_grows st st' : rtc prim st st' → grows st st'.
Proof.
  induction 1 as [st | st1 st2 st3 Hprim _ IH].
  - apply grows_refl.
  - eapply grows_trans; [by apply prim_grows | done].
Qed.

Lemma step_prims st st' : step st st' → rtc prim st st'.
Proof.
  intros Hstep. destruct Hstep as
    [env p r st st' Hrun | V HV env env' p c r st st' Hrun
    | fd section key defaultVal r st st' Hrun | fd f r st st' Hrun
    | env fd r st st' Hrun | V HV env fd v r st st' Hrun
    | env i w event r st st' Hw Hin Hrun].
  - destruct (iniFiler st !! p) as [f|] eqn:Hreg.
    { rewrite (NewIniFile_registered _ _ _ _ Hreg) in Hrun.
      injection Hrun as _ <-. apply rtc_refl. }
    rewrite (NewIniFile_fresh _ _ _ Hreg) in Hrun.
    set (d := {| fileName := p; watch := false; cfg := None |}) in *.
    set (st0 := set_heap (λ h, h ++ [d]) st) in *.
    destruct (load env (length (heap st)) st0) as [[err st1]|] eqn:Hload; [| done].
    assert (heap st0 !! length (heap st) = Some d) as Hd
      by (simpl; by apply list_lookup_middle).
    pose proof (load_prims _ _ _ _ _ Hload) as Hchain.
    eapply rtc_l; [apply (prim_alloc st d eq_refl) |].
    etrans; [exact Hchain |].
    destruct err as [e|]; injection Hrun as _ <-; [apply rtc_refl |].
    apply prims_grows in Hchain as [Hheap _ _].
    destruct (Hheap _ _ Hd) as (d1 & Hd1 & Hn1).
    apply rtc_once. apply (prim_insert st1 p _ d1); [| done | done].
    destruct (load_outcome env _ st0 d Hd) as (st1' & tl & Hload' & _ & _ & Hini & _).
    rewrite Hload' in Hload. injection Hload as _ <-. by rewrite Hini.
  - apply LoadIniConfig_state in Hrun as [[-> _] | (cf & -> & _)];
      [apply rtc_refl |].
    apply rtc_once. by apply prim_alloc.
  - unfold ReadKey in Hrun. revert Hrun. run.
    destruct (heap st !! fd) as [d|]; [| done]. simpl.
    destruct (cfg d); [| done]. case_decide; intros [= _ <-]; apply rtc_refl.
  - destruct (heap st !! fd) as [d|] eqn:Hd.
    2: { unfold Register in Hrun. revert Hrun. run. by rewrite Hd. }
    rewrite (Register_outcome fd f st d Hd) in Hrun. injection Hrun as _ <-.
    apply rtc_once. by apply (prim_register st fd d).
  - by apply newKeepWatch_prims in Hrun.
  - apply MapContents_outcome in Hrun as (d & Hd & -> & _).
    apply rtc_once. apply prim_cfg.
  - unfold loop_body in Hrun. case_decide.
    2: { injection Hrun as _ <-. apply rtc_refl. }
    destruct (w_loop w).
    + revert Hrun. unfold mbind, M_bind.
      destruct (load env (w_fd w) st) as [[err st1]|] eqn:Hload; [| done].
      intros Hup. etrans; [by eapply load_prims | by eapply update_prims].
    + by eapply update_prims.
Qed.

Lemma steps_prims st st' : steps st st' → rtc prim st st'.
Proof.
  induction 1 as [st | st1 st2 st3 Hstep _ IH]; [apply rtc_refl |].
  etrans; [by apply step_prims | done].
Qed.

Lemma reloaders_snoc fd ws w :
  reloaders fd (ws ++ [w]) =
    reloaders fd ws ++
    (if decide (w_fd w = fd ∧ w_loop w = LoadAndUpdate ∧ w_paths w ≠ [])
     then [w] else []).
Proof.
  unfold reloaders. by rewrite filter_app.
Qed.

Lemma prim_wf st st' : prim st st' → wf st → wf st'.
Proof.
  intros Hprim [Hreg Hws Hrl].
  pose proof (prim_heap st st') as Hheap.
  split.
  - intros p h Hp.
    assert (iniFiler st !! p = Some h ∨
            ∃ d, heap st !! h = Some d ∧ fileName d = p) as [Hold | Hnew].
    { destruct Hprim as [| | | | | | st p0 fd d Hnone Hd Hn |]; simpl in Hp; auto.
      destruct (decide (p0 = p)) as [-> | Hne].
      - rewrite lookup_insert_eq in Hp. injection Hp as <-. eauto.
      - rewrite lookup_insert_ne in Hp by done. auto. }
    + destruct (Hreg p h Hold) as (d & Hd & Hn).
      destruct (Hheap h d Hprim Hd) as (d' & Hd' & Hn'). exists d'.
      split; [done |]. by rewrite Hn'.
    + destruct Hnew as (d & Hd & Hn).
      destruct (Hheap h d Hprim Hd) as (d' & Hd' & Hn'). exists d'.
      split; [done |]. by rewrite Hn'.
  - intros w Hw.
    assert (w ∈ watchers st ∨
            ∃ d, heap st !! w_fd w = Some d ∧
                 (w_paths w = [] ∨ w_paths w = [fileName d])) as [Hold | Hnew].
    { destruct Hprim; simpl in Hw; auto;
        apply elem_of_app in Hw as [Hw | Hw%list_elem_of_singleton]; auto;
        subst w; simpl; eauto. }
    + destruct (Hws w Hold) as (d & Hd & Hpaths).
      destruct (Hheap _ d Hprim Hd) as (d' & Hd' & Hn'). exists d'.
      split; [done |]. by rewrite Hn'.
    + destruct Hnew as (d & Hd & Hpaths).
      destruct (Hheap _ d Hprim Hd) as (d' & Hd' & Hn'). exists d'.
      split; [done |]. by rewrite Hn'.
  - intros fd'. specialize (Hrl fd').
    destruct Hprim as [st d Hw | st fd c | st fd k d Hd | st fd d Hd
                      | st fd d Hd Hw | | |]; simpl; try done.
    + by rewrite flag_snoc.
    + by rewrite flag_alter_with_cfg.
    + rewrite reloaders_snoc, decide_False; [by rewrite app_nil_r |].
      simpl. by intros (_ & _ & ?).
    + rewrite reloaders_snoc, decide_False; [by rewrite app_nil_r |].
      simpl. by intros (_ & ? & _).
    + rewrite reloaders_snoc, length_app, Hrl.
      rewrite (flag_alter_with_watch _ fd d) by done. simpl in *. f_equal.
      destruct (decide (fd' = fd)) as [-> | Hne].
      * by rewrite decide_True.
      * rewrite decide_False; [done |]. intros (? & _). by subst.
Qed.

Lemma wf_init : wf init.
Proof.
  split.
  - intros p h Hp. simpl in Hp. by rewrite lookup_empty in Hp.
  - intros w Hw. by apply elem_of_nil in Hw.
  - by intros fd.
Qed.

Lemma prims_wf st st' : rtc prim st st' → wf st → wf st'.
Proof.
  induction 1 as [st | st1 st2 st3 Hprim _ IH]; [done |].
  intros Hwf. apply IH. by eapply prim_wf.
Qed.

Lemma steps_wf st : steps init st → wf st.
Proof. intros Hsteps. apply (prims_wf init); [by apply steps_prims | apply wf_init]. Qed.

Lemma steps_grows st st' : steps st st' → grows st st'.
Proof. intros Hsteps. by apply prims_grows, steps_prims. Qed.

(** ** What holds in every state the package reaches *)

Lemma steps_init_st_both : steps init st_both.
Proof. unfold steps. etrans; [apply steps_st_open | apply steps_st_both]. Qed.

(** X12. In every state the package reaches, the registry maps a path to an
    allocated handle whose file name is that path; so no handle is registered
    under two paths. *)
Theorem registry_entry_is_handle_of_path st p h :
  steps init st → iniFiler st !! p = Some h →
  (∃ d, heap st !! h = Some d ∧ fileName d = p) ∧
  (∀ p', iniFiler st !! p' = Some h → p' = p).
Proof.
  intros Hreach Hp. apply steps_wf in Hreach as [Hreg _ _].
  destruct (Hreg p h Hp) as (d & Hd & Hn). split; [eauto |].
  intros p' Hp'. destruct (Hreg p' h Hp') as (d' & Hd' & Hn').
  rewrite Hd in Hd'. injection Hd' as <-. by rewrite <- Hn, <- Hn'.
Qed.

Lemma registry_entry_is_handle_of_path_witness :
  (∃ d, heap st_both !! 0 = Some d ∧ fileName d = "app.ini") ∧
  (∀ p', iniFiler st_both !! p' = Some 0 → p' = "app.ini").
Proof.
  apply (registry_entry_is_handle_of_path st_both "app.ini" 0).
  - exact steps_init_st_both.
  - reflexivity.
Defined.

(** X13. A handle is never freed and never renamed: whatever the package
    does afterwards, the address still holds a handle of the same file. *)
Theorem handle_keeps_its_file st st' fd d :
  steps st st' → heap st !! fd = Some d →
  ∃ d', heap st' !! fd = Some d' ∧ fileName d' = fileName d.
Proof. intros Hsteps Hd. apply steps_grows in Hsteps as [Hheap _ _]. eauto. Qed.

Lemma handle_keeps_its_file_witness :
  ∃ d', heap st_both !! 0 = Some d' ∧ fileName d' = "app.ini".
Proof.
  exact (handle_keeps_its_file st_open st_both 0 _ steps_st_both eq_refl).
Defined.

(** X14. Callbacks are never removed or reordered: whatever the package
    does, the list kept under a path keeps its entries in place and can only
    get longer at the end. *)
Theorem subscribers_only_grow st st' p l :
  steps st st' → updaters st !! p = Some l →
  ∃ l', updaters st' !! p = Some (l ++ l').
Proof. intros Hsteps Hl. apply steps_grows in Hsteps as [_ Hup _]. eauto. Qed.

(** X15. No move stops a watch loop or changes what it watches: the
    watchers of a state are still there, unchanged and in place, in every
    later state. *)
Theorem watchers_are_never_stopped st st' :
  steps st st' → watchers st `prefix_of` watchers st'.
Proof. intros Hsteps. by apply steps_grows in Hsteps as [_ _ Hws]. Qed.

Lemma watchers_are_never_stopped_witness :
  watchers st_open `prefix_of` watchers st_both.
Proof. exact (watchers_are_never_stopped st_open st_both steps_st_both). Defined.

(** X16. In every state the package reaches, a handle with its [watch] flag
    set has exactly one loop that reloads it, and a handle with the flag
    clear has none: no write is ever answered by two reloads of one
    handle. *)
Theorem one_reloading_loop_per_handle st fd d :
  steps init st → heap st !! fd = Some d →
  length (reloaders fd (watchers st)) = (if watch d then 1 else 0).
Proof.
  intros Hreach Hd. apply steps_wf in Hreach as [_ _ Hrl].
  rewrite Hrl. unfold flag. by rewrite Hd.
Qed.

Lemma one_reloading_loop_per_handle_witness :
  length (reloaders 0 (watchers st_both)) = 1.
Proof.
  exact (one_reloading_loop_per_handle st_both 0 _
           steps_init_st_both eq_refl).
Defined.

(** X17. In every state the package reaches, a watcher belongs to an
    allocated handle and the only path it can watch is that handle's file:
    a loop is never handed the events of another file. *)
Theorem watcher_watches_own_file st w :
  steps init st → w ∈ watchers st →
  ∃ d, heap st !! w_fd w = Some d ∧ ∀ p, p ∈ w_paths w → p = fileName d.
Proof.
  intros Hreach Hw. apply steps_wf in Hreach as [_ Hws _].
  destruct (Hws w Hw) as (d & Hd & [Hnil | Hone]); exists d; (split; [done |]);
    intros p Hp.
  - rewrite Hnil in Hp. by apply elem_of_nil in Hp.
  - rewrite Hone in Hp. by apply list_elem_of_singleton in Hp.
Qed.

Lemma watcher_watches_own_file_witness :
  ∃ d, heap st_both !! 0 = Some d ∧ ∀ p, p ∈ ["app.ini"] → p = fileName d.
Proof.
  apply (watcher_watches_own_file st_both
           {| w_fd := 0; w_loop := UpdateOnly; w_paths := ["app.ini"] |}).
  - exact steps_init_st_both.
  - simpl. apply list_elem_of_further, list_elem_of_here.
Defined.

(** X19. The handle that [LoadIniConfig] returns is new: in the state it
    leaves, the handle is registered under no path and no loop belongs to
    it, whatever was opened or loaded before. *)
Theorem LoadIniConfig_handle_is_fresh `{Mappable V} env env' p (c c' : V) fd st st' :
  steps init st →
  LoadIniConfig env env' p c st = Some ((c', (Some fd, None)), st') →
  heap st !! fd = None ∧
  (∃ d, heap st' !! fd = Some d ∧ fileName d = p ∧ watch d = false) ∧
  (∀ p', iniFiler st' !! p' ≠ Some fd) ∧
  (∀ w, w ∈ watchers st' → w_fd w ≠ fd).
Proof.
  intros Hreach Hrun. apply steps_wf in Hreach as [Hreg Hws _].
  apply LoadIniConfig_state in Hrun as [[_ [=]] | (cf & -> & [[=] | [= ->]])].
  simpl.
  assert (heap st !! length (heap st) = None) as Hnone
    by (by apply lookup_ge_None).
  split; [done |]. split; [| split].
  - eexists. split; [by apply list_lookup_middle | done].
  - intros p' Hp'. destruct (Hreg p' _ Hp') as (d & Hd & _). by rewrite Hnone in Hd.
  - intros w Hw Heq. destruct (Hws w Hw) as (d & Hd & _).
    by rewrite Heq, Hnone in Hd.
Qed.

Lemma LoadIniConfig_handle_is_fresh_witness :
  heap st_open !! 1 = None ∧
  (∃ d, heap st_two !! 1 = Some d ∧ fileName d = "app.ini" ∧ watch d = false) ∧
  (∀ p', iniFiler st_two !! p' ≠ Some 1) ∧
  (∀ w, w ∈ watchers st_two → w_fd w ≠ 1).
Proof.
  apply (LoadIniConfig_handle_is_fresh env_ok env_ok "app.ini"
           {| Port := "" |} {| Port := "8080" |} 1 st_open st_two).
  - exact steps_st_open.
  - vm_compute. reflexivity.
Defined.

(** X20. No call of a client starts a callback: opening, loading, reading,
    registering, decoding and asking for a watch leave the callbacks alone,
    which are started by the watch loops only. *)
Theorem calls_start_no_callback st st' :
  call st st' →
  ∃ tl, trace st' = trace st ++ tl ∧ ∀ f, EvCallback f ∉ tl.
Proof.
  assert (∀ st0 : state, ∃ tl, trace st0 = trace st0 ++ tl ∧ ∀ f, EvCallback f ∉ tl)
    as Hsame.
  { intros st0. exists []. split; [by rewrite app_nil_r |].
    by intros f ?%elem_of_nil. }
  intros Hcall. destruct Hcall as
    [env p r st st' Hrun | V HV env env' p c r st st' Hrun
    | fd section key defaultVal r st st' Hrun | fd f r st st' Hrun
    | env fd r st st' Hrun | V HV env fd v r st st' Hrun].
  - destruct (iniFiler st !! p) as [f|] eqn:Hreg.
    { rewrite (NewIniFile_registered _ _ _ _ Hreg) in Hrun.
      injection Hrun as _ <-. apply Hsame. }
    rewrite (NewIniFile_fresh _ _ _ Hreg) in Hrun.
    set (d := {| fileName := p; watch := false; cfg := None |}) in *.
    set (st0 := set_heap (λ h, h ++ [d]) st) in *.
    assert (heap st0 !! length (heap st) = Some d) as Hd
      by (simpl; by apply list_lookup_middle).
    destruct (load_outcome env _ st0 d Hd) as (st1 & tl & Hload & Htr & _ & _ & Hc).
    rewrite Hload in Hrun.
    assert (trace st' = trace st1) as ->.
    { destruct (ini_Load env (fileName d)).2; by injection Hrun as _ <-. }
    eexists. split; [exact Htr |]. intros f Hin.
    apply elem_of_app in Hin as [Hin%list_elem_of_singleton | Hin]; [done |].
    destruct Hc as [(-> & _) | [(-> & _) | (-> & _)]];
      repeat (apply elem_of_cons in Hin as [Hin | Hin]; [done |]);
      by apply elem_of_nil in Hin.
  - apply LoadIniConfig_state in Hrun as [[-> _] | (cf & -> & _)];
      apply (Hsame st).
  - unfold ReadKey in Hrun. revert Hrun. run.
    destruct (heap st !! fd) as [d|]; [| done]. simpl.
    destruct (cfg d); [| done]. case_decide; intros [= _ <-]; apply Hsame.
  - destruct (heap st !! fd) as [d|] eqn:Hd.
    2: { unfold Register in Hrun. revert Hrun. run. by rewrite Hd. }
    rewrite (Register_outcome fd f st d Hd) in Hrun. injection Hrun as _ <-.
    apply (Hsame st).
  - unfold KeepWatch in Hrun. destruct (heap st !! fd) as [d|] eqn:Hd.
    2: { unfold newKeepWatch in Hrun. revert Hrun.
         destruct (fsnotify_NewWatcher env); run.
         - intros [= _ <-]. apply Hsame.
         - by rewrite Hd. }
    destruct (newKeepWatch_outcome env fd st d Hd) as (r0 & st0 & Hrun0 & _ & _ & _ & Hc).
    rewrite Hrun0 in Hrun. injection Hrun as _ <-.
    destruct Hc as [(e & _ & _ & ->) | [(e & _ & _ & _ & _ & Htr) | (_ & _ & _ & _ & Htr)]];
      [apply Hsame | |]; (eexists; split; [exact Htr |]);
      by intros f [=]%list_elem_of_singleton.
  - apply MapContents_outcome in Hrun as (d & Hd & -> & _). apply (Hsame st).
Qed.

Lemma calls_start_no_callback_witness :
  ∃ tl, trace st_both = trace st_open ++ tl ∧ ∀ f, EvCallback f ∉ tl.
Proof.
  apply (calls_start_no_callback st_open st_both).
  apply (call_KeepWatch env_ok 0 None). by vm_compute.
Defined.

Lemma subscribers_only_grow_witness :
  ∃ l', updaters (set_updaters (λ _, {[ "app.ini" := [7; 8] ]}) st_open) !! "app.ini"
        = Some ([7] ++ l').
Proof.
  apply (subscribers_only_grow (set_updaters (λ _, {[ "app.ini" := [7] ]}) st_open)).
  - apply rtc_once. apply (step_Register 0 8 tt). by vm_compute.
  - reflexivity.
Defined.

(** ** The first version: registering on the nil map *)

Lemma V1_step_prims s s' : V1.step1 s s' → rtc prim (V1.pkg s) (V1.pkg s').
Proof.
  intros Hstep. destruct Hstep as
    [env p r s s' Hrun | fd section key defaultVal r s s' Hrun
    | fd f r s s' Hrun | env i w event r s s' Hw Hin Hrun].
  - apply step_prims. apply (step_NewIniFile env p r).
    revert Hrun. unfold V1.NewIniFile, NewIniFile, V1.lift. run.
    destruct (iniFiler (V1.pkg s) !! p) as [f|]; simpl.
    { by intros [= <- <-]. }
    destruct (load _ _ _) as [[[e|] st1]|]; simpl; [| | done];
      by intros [= <- <-].
  - apply step_prims. apply (step_ReadKey fd section key defaultVal r).
    revert Hrun. unfold V1.ReadKey, V1.lift.
    destruct (ReadKey _ _ _ _ _) as [[a st1]|]; [| done]. by intros [= <- <-].
  - apply step_prims. apply (step_Register fd f r).
    revert Hrun. unfold V1.Register, V1.lift. destruct (V1.made s); [| done].
    destruct (Register _ _ _) as [[a st1]|]; [| done]. by intros [= <- <-].
  - revert Hrun. unfold V1.loop_body, V1.update, V1.lift. case_decide.
    2: { intros [= _ <-]. apply rtc_refl. }
    destruct (load env (w_fd w) (V1.pkg s)) as [[err st1]|] eqn:Hload; [| done].
    simpl. destruct (update (w_fd w) st1) as [[a st2]|] eqn:Hup; [| done].
    intros [= _ <-]. simpl.
    etrans; [by eapply load_prims | by eapply update_prims].
Qed.

Lemma V1_made_if_registered s :
  V1.steps1 V1.init1 s →
  wf (V1.pkg s) ∧ (∀ p h, iniFiler (V1.pkg s) !! p = Some h → V1.made s = true).
Proof.
  intros Hreach. unfold V1.steps1 in Hreach. revert s Hreach.
  apply (rtc_ind_r (λ s, wf (V1.pkg s) ∧
           ∀ p h, iniFiler (V1.pkg s) !! p = Some h → V1.made s = true)).
  2: intros s s' Hsteps Hstep IH.
  { split; [apply wf_init |]. intros p h Hp. simpl in Hp.
    by rewrite lookup_empty in Hp. }
  destruct IH as [Hwf Hmade]. split.
  { eapply prims_wf; [by apply V1_step_prims | done]. }
  clear Hsteps. intros p h Hp. destruct Hstep as
    [env p0 r s s' Hrun | fd section key defaultVal r s s' Hrun
    | fd f r s s' Hrun | env i w event r s s' Hw Hin Hrun].
  - revert Hrun Hp. unfold V1.NewIniFile, V1.lift. run.
    destruct (iniFiler (V1.pkg s) !! p0) as [f|] eqn:Hreg; simpl.
    { intros [= _ <-]. by apply Hmade. }
    destruct (load _ _ _) as [[[e|] st1]|] eqn:Hload; simpl; [| | done].
    + intros [= _ <-]. simpl. intros Hp. apply (Hmade p h).
      destruct (load_outcome env (length (heap (V1.pkg s)))
                  (set_heap (λ l, l ++ [{| fileName := p0; watch := false; cfg := None |}])
                     (V1.pkg s)) _ (list_lookup_middle _ [] _ _ eq_refl))
        as (st1' & tl & Hload' & _ & _ & Hini & _).
      rewrite Hload' in Hload. injection Hload as _ <-. by rewrite Hini in Hp.
    + by intros [= _ <-].
  - revert Hrun Hp. unfold V1.ReadKey, V1.lift, ReadKey. run.
    destruct (heap (V1.pkg s) !! fd) as [d|]; [| done]. simpl.
    destruct (cfg d); [| done]. case_decide; intros [= _ <-]; simpl; apply Hmade.
  - revert Hrun Hp. unfold V1.Register, V1.lift.
    destruct (V1.made s) eqn:Hm; [| done].
    destruct (Register _ _ _) as [[a st1]|]; [| done]. by intros [= _ <-].
  - assert (iniFiler (V1.pkg s') = iniFiler (V1.pkg s) ∧ V1.made s' = V1.made s)
      as [Hini Hm].
    { revert Hrun. unfold V1.loop_body, V1.update, V1.lift. case_decide.
      2: { by intros [= _ <-]. }
      destruct (load env (w_fd w) (V1.pkg s)) as [[err st1]|] eqn:Hload; [| done].
      simpl. destruct (update (w_fd w) st1) as [[a st2]|] eqn:Hup; [| done].
      intros [= _ <-]. simpl. split; [| done].
      apply load_evolves in Hload as Hev1. apply update_evolves in Hup as Hev2.
      destruct (heap (V1.pkg s) !! w_fd w) as [d|] eqn:Hd.
      2: { unfold load in Hload. revert Hload. run. by rewrite Hd. }
      destruct (load_outcome env _ _ d Hd) as (st1' & tl & Hload' & _ & _ & Hini1 & _).
      rewrite Hload' in Hload. injection Hload as _ <-.
      destruct (heap st1' !! w_fd w) as [d1|] eqn:Hd1.
      2: { unfold update in Hup. revert Hup. run. by rewrite Hd1. }
      rewrite (update_outcome _ _ d1 Hd1) in Hup. injection Hup as _ <-.
      done. }
    rewrite Hm. apply (Hmade p h). by rewrite <- Hini.
Qed.

(** X21. In the first version, [Register] assigns into [updaters] without
    making it, and still never panics on a handle the client holds: every
    handle comes out of a successful [NewIniFile], which has made the map by
    then.  The callback goes to the end of the list of the handle's file. *)
Theorem V1_Register_never_panics s p h f :
  V1.steps1 V1.init1 s → iniFiler (V1.pkg s) !! p = Some h →
  ∃ s' d, V1.Register h f s = Some (tt, s') ∧
    heap (V1.pkg s) !! h = Some d ∧
    registered d (V1.pkg s') = registered d (V1.pkg s) ++ [f].
Proof.
  intros Hreach Hp. destruct (V1_made_if_registered s Hreach) as [[Hreg _ _] Hmade].
  destruct (Hreg p h Hp) as (d & Hd & _).
  unfold V1.Register, V1.lift. rewrite (Hmade p h Hp).
  rewrite (Register_outcome h f _ d Hd). eexists _, d. split; [done |].
  split; [done |]. simpl. apply registered_Register.
Qed.

Lemma V1_Register_never_panics_witness :
  ∃ s' d, V1.Register 0 7 {| V1.pkg := st_open; V1.made := true |} = Some (tt, s') ∧
    heap st_open !! 0 = Some d ∧
    registered d (V1.pkg s') = registered d st_open ++ [7].
Proof.
  apply (V1_Register_never_panics {| V1.pkg := st_open; V1.made := true |} "app.ini").
  - apply rtc_once. apply (V1.step1_NewIniFile env_ok "app.ini" (Some 0, None)).
    by vm_compute.
  - reflexivity.
Defined.
